(** * SmartObject: the intrusive reference counter of EpOraLibrary

    A shallow embedding of [epl::SmartObject] (epSmartObject.h) and the
    properties of its retain / release protocol.

    The header carries the bodies of the diagnostic build (the branch
    [#else //!defined(_DEBUG)]): [Retain], [Release], both constructors
    and the destructor.  They are embedded here statement by statement in
    a small monad over a world made of the object store, the lock store
    and a trace of observable events.  *)

From stdpp Require Import gmap strings list fin_maps pretty.
From Stdlib Require Import ZArith Lia.

Local Open Scope Z_scope.

(** ** Data model *)

(** Addresses of heap cells (objects and locks live in separate stores). *)
Abbreviation addr := positive.

(** [int m_refCount]: a 32-bit two's complement integer.  [++] and [--]
    are written with their wrap-around, as the compilers this library
    targets compute them. *)
Definition INT_MAX : Z := 2147483647.
Definition INT_MIN : Z := -2147483648.

Definition wrap_int (z : Z) : Z := (z + 2147483648) mod 4294967296 - 2147483648.

(** [enum LockPolicy], declared outside the header.  The three
    enumerators the constructors switch on, and any other value of the
    enumeration type, which the [default:] branch of the switch
    receives. *)
Inductive LockPolicy : Type :=
| LOCK_POLICY_CRITICALSECTION
| LOCK_POLICY_MUTEX
| LOCK_POLICY_NONE
| LOCK_POLICY_unlisted (raw : Z).

(** The three concrete classes behind [BaseLock *]. *)
Inductive LockClass : Type := CriticalSectionEx | Mutex | NoLock.

(** Modelled from the spec: the lock classes (epCriticalSectionEx.h,
    epMutex.h, epNoLock.h) are not part of the header.  A lock offers
    acquire and release, mutual exclusion only; [NoLock] satisfies the
    interface and performs no synchronisation. *)
Record BaseLock : Type := mkLock { lock_class : LockClass; lock_held : bool }.

(** The private members of [SmartObject]; [None] is the NULL pointer. *)
Record SmartObject : Type := mkObj {
  m_refCount : Z;
  m_refCounterLock : option addr;
  m_lockPolicy : LockPolicy
}.

(** The call-site arguments the diagnostic build threads through. *)
Record CallSite : Type := mkSite {
  fileName : string;
  funcName : string;
  lineNum : N
}.

(** The four messages handed to [LOG_THIS_MSG]. *)
Inductive LogMsg : Type := Allocated | Retained | Released | Deleted.

(** Observable events, in program order. *)
Inductive Event : Type :=
| EvNewObj (this : addr)                         (* storage of a new object *)
| EvNewLock (l : addr) (k : LockClass)           (* EP_NEW of a lock *)
| EvLock (l : addr)                              (* ->Lock() *)
| EvUnlock (l : addr)                            (* ->Unlock() *)
| EvCount (this : addr) (v : Z)                  (* a write to m_refCount *)
| EvLog (m : LogMsg) (site : option CallSite) (this : addr) (count : Z)
| EvDelete (this : addr)                         (* EP_DELETE this begins *)
| EvDeleteLock (l : addr)                        (* EP_DELETE m_refCounterLock *)
| EvFree (this : addr).                          (* the object's storage is gone *)

Record World : Type := mkWorld {
  objects : gmap addr SmartObject;
  locks : gmap addr BaseLock;
  trace : list Event
}.

Definition empty_world : World := mkWorld ∅ ∅ [].

(** The two exceptions of epException.h that the class raises. *)
Inductive Exception : Type :=
| domain_error (msg : string)
| runtime_error (msg : string).

(** What a call can do: return, leave through an exception, run into
    undefined behaviour (a member access through a dangling or null
    pointer), or wait for ever on a lock that is held. *)
Inductive Outcome (A : Type) : Type :=
| Ok (a : A) (w : World)
| Thrown (e : Exception) (w : World)
| Undefined (w : World)
| Blocked (w : World).

Arguments Ok {A} a w.
Arguments Thrown {A} e w.
Arguments Undefined {A} w.
Arguments Blocked {A} w.

Definition world_of {A} (r : Outcome A) : World :=
  match r with
  | Ok _ w | Thrown _ w | Undefined w | Blocked w => w
  end.

(** ** The monad of member functions *)

Definition M (A : Type) : Type := World → Outcome A.

Definition M_bind_def {A B} (f : A → M B) (m : M A) : M B := λ w,
  match m w with
  | Ok a w' => f a w'
  | Thrown e w' => Thrown e w'
  | Undefined w' => Undefined w'
  | Blocked w' => Blocked w'
  end.

#[global] Instance M_ret : MRet M := λ A a w, Ok a w.
#[global] Instance M_bind : MBind M := @M_bind_def.

Definition throw {A} (e : Exception) : M A := λ w, Thrown e w.
Definition undefined {A} : M A := λ w, Undefined w.

Definition emit (e : Event) : M unit := λ w,
  Ok tt (mkWorld (objects w) (locks w) (trace w ++ [e])).

(** *** Member access *)

(** [this->f]: reading a member of an object that no longer exists is
    undefined. *)
Definition field {A} (f : SmartObject → A) (this : addr) : M A := λ w,
  match objects w !! this with
  | Some o => Ok (f o) w
  | None => Undefined w
  end.

Definition with_refCount (o : SmartObject) (v : Z) : SmartObject :=
  mkObj v (m_refCounterLock o) (m_lockPolicy o).

(** [this->m_refCount = v]. *)
Definition set_refCount (this : addr) (v : Z) : M unit := λ w,
  match objects w !! this with
  | Some o =>
      Ok tt (mkWorld (<[this := with_refCount o v]> (objects w)) (locks w)
                     (trace w ++ [EvCount this v]))
  | None => Undefined w
  end.

(** [m_refCount++] and [m_refCount--]. *)
Definition incr_refCount (this : addr) : M unit :=
  c ← field m_refCount this; set_refCount this (wrap_int (c + 1)).

Definition decr_refCount (this : addr) : M unit :=
  c ← field m_refCount this; set_refCount this (wrap_int (c - 1)).

(** *** Locks *)

Definition set_lock (l : addr) (b : BaseLock) : M unit := λ w,
  Ok tt (mkWorld (objects w) (<[l := b]> (locks w)) (trace w)).

(** Modelled from the spec: [p->Lock()], whose bodies in the lock classes
    are not part of the header.  A call through a NULL or dangling
    pointer is undefined; [NoLock] does nothing; the two real locks give
    mutual exclusion without recursion, so acquiring a held lock waits. *)
Definition BaseLock_Lock (p : option addr) : M unit :=
  match p with
  | None => undefined
  | Some l => λ w,
      match locks w !! l with
      | None => Undefined w
      | Some b =>
          match lock_class b with
          | NoLock => emit (EvLock l) w
          | _ =>
              if lock_held b then Blocked w
              else (set_lock l (mkLock (lock_class b) true) ;; emit (EvLock l)) w
          end
      end
  end.

(** Modelled from the spec: [p->Unlock()], as [Lock].  The two real locks
    become free, [NoLock] does nothing. *)
Definition BaseLock_Unlock (p : option addr) : M unit :=
  match p with
  | None => undefined
  | Some l => λ w,
      match locks w !! l with
      | None => Undefined w
      | Some b =>
          match lock_class b with
          | NoLock => emit (EvUnlock l) w
          | _ => (set_lock l (mkLock (lock_class b) false) ;; emit (EvUnlock l)) w
          end
      end
  end.

(** [EP_NEW K()]: a free lock of class [K] at an address not in use. *)
Definition new_lock (k : LockClass) : M (option addr) := λ w,
  let l := fresh (dom (locks w)) in
  Ok (Some l) (mkWorld (objects w) (<[l := mkLock k false]> (locks w))
                       (trace w ++ [EvNewLock l k])).

(** [EP_DELETE p] on a lock; deleting what is not there is undefined. *)
Definition delete_lock (l : addr) : M unit := λ w,
  match locks w !! l with
  | None => Undefined w
  | Some _ =>
      Ok tt (mkWorld (objects w) (delete l (locks w)) (trace w ++ [EvDeleteLock l]))
  end.

(** Modelled from the spec: [LockObj] (the scoped guard used by [Retain])
    is declared outside the header.  It acquires the lock where it is
    declared and releases it at the end of the scope. *)
Definition LockObj_enter (p : option addr) : M unit := BaseLock_Lock p.
Definition LockObj_leave (p : option addr) : M unit := BaseLock_Unlock p.

(** *** Diagnostics and errors *)

(** Modelled from the spec: [LOG_THIS_MSG] (epSimpleLogger.h) is not part
    of the header.  The diagnostic sink accepts an event with its kind,
    the call site when there is one, the object's identity and the
    resulting count; it is purely observational. *)
Definition LOG_THIS_MSG (m : LogMsg) (site : option CallSite) (this : addr) (count : Z)
  : M unit := emit (EvLog m site this count).

(** [System::SPrintf(errMsg, fmt "%d", m_refCount)]. *)
Definition negative_count_msg (count : Z) : string :=
  "Reference Count is negative Value! Reference Count : " +:+ pretty count.

Definition nonzero_count_msg (count : Z) : string :=
  "The Reference Count is not 0!! Reference Count : " +:+ pretty count.

(** Modelled from the spec: the verification macros of epException.h are
    not part of the header.  The error-signalling mechanism raises a
    catchable failure that carries the message, at the place that detects
    the violated condition; nothing happens when the condition holds. *)
Definition EP_VERIFY_DOMAIN_ERROR_W_MSG (cond : bool) (msg : string) : M unit :=
  if cond then mret tt else throw (domain_error msg).

Definition EP_VERIFY_RUNTIME_ERROR_W_MSG (cond : bool) (msg : string) : M unit :=
  if cond then mret tt else throw (runtime_error msg).

(** ** The member functions of the diagnostic build *)

(** [virtual ~SmartObject()], lines 184-200. *)
Definition SmartObject_dtor (this : addr) : M unit :=
  p ← field m_refCounterLock this;
  BaseLock_Lock p ;;                                   (* m_refCounterLock->Lock(); *)
  decr_refCount this ;;                                (* m_refCount--; *)
  c ← field m_refCount this;
  LOG_THIS_MSG Deleted None this c ;;
  c ← field m_refCount this;
  (if negb (c =? 0)                                    (* if(m_refCount!=0) *)
   then EP_VERIFY_RUNTIME_ERROR_W_MSG (c =? 0) (nonzero_count_msg c)
   else mret tt) ;;
  p ← field m_refCounterLock this;
  BaseLock_Unlock p ;;                                 (* m_refCounterLock->Unlock(); *)
  p ← field m_refCounterLock this;
  match p with                                         (* if(m_refCounterLock) *)
  | Some l => delete_lock l                            (*   EP_DELETE m_refCounterLock; *)
  | None => mret tt
  end.

Definition free_object (this : addr) : M unit := λ w,
  match objects w !! this with
  | None => Undefined w
  | Some _ =>
      Ok tt (mkWorld (delete this (objects w)) (locks w) (trace w ++ [EvFree this]))
  end.

(** What a delete-expression does with the object: the destructor runs,
    then the storage is given back, also when the destructor leaves
    through an exception, which then goes on to the caller. *)
Definition destroy_and_free (this : addr) : M unit := λ w,
  match SmartObject_dtor this w with
  | Ok _ w' => free_object this w'
  | Thrown e w' =>
      match free_object this w' with
      | Ok _ w'' => Thrown e w''
      | r => r
      end
  | r => r
  end.

(** [EP_DELETE this]. *)
Definition delete_this (this : addr) : M unit :=
  emit (EvDelete this) ;;
  destroy_and_free this.

(** [void Retain(fileName, funcName, lineNum)], lines 95-100. *)
Definition Retain (site : CallSite) (this : addr) : M unit :=
  p ← field m_refCounterLock this;
  LockObj_enter p ;;                                   (* LockObj lock(m_refCounterLock); *)
  incr_refCount this ;;                                (* m_refCount++; *)
  c ← field m_refCount this;
  LOG_THIS_MSG Retained (Some site) this c ;;
  LockObj_leave p.

(** [void Release(fileName, funcName, lineNum)], lines 106-126. *)
Definition Release (site : CallSite) (this : addr) : M unit :=
  p ← field m_refCounterLock this;
  BaseLock_Lock p ;;                                   (* m_refCounterLock->Lock(); *)
  decr_refCount this ;;                                (* m_refCount--; *)
  c ← field m_refCount this;
  LOG_THIS_MSG Released (Some site) this c ;;
  c ← field m_refCount this;
  if c =? 0 then                                       (* if(m_refCount==0) *)
    incr_refCount this ;;                              (*   m_refCount++; *)
    p ← field m_refCounterLock this;
    BaseLock_Unlock p ;;                               (*   m_refCounterLock->Unlock(); *)
    delete_this this ;;                                (*   EP_DELETE this; *)
    mret tt                                            (*   return; *)
  else
    c ← field m_refCount this;
    (if c <? 0                                         (* if(m_refCount<0) *)
     then EP_VERIFY_DOMAIN_ERROR_W_MSG (0 <=? c) (negative_count_msg c)
     else mret tt) ;;
    p ← field m_refCounterLock this;
    BaseLock_Unlock p.                                 (* m_refCounterLock->Unlock(); *)

(** The [switch] shared by both constructors, lines 138-152 and 164-178. *)
Definition lock_for_policy (policy : LockPolicy) : M (option addr) :=
  match policy with
  | LOCK_POLICY_CRITICALSECTION => new_lock CriticalSectionEx
  | LOCK_POLICY_MUTEX => new_lock Mutex
  | LOCK_POLICY_NONE => new_lock NoLock
  | LOCK_POLICY_unlisted _ => mret None                (* default: NULL *)
  end.

(** The storage the new-expression hands to a constructor. *)
Definition new_object_storage : M addr := λ w,
  let this := fresh (dom (objects w)) in
  Ok this (mkWorld (objects w) (locks w) (trace w ++ [EvNewObj this])).

Definition init_object (this : addr) (o : SmartObject) : M unit := λ w,
  Ok tt (mkWorld (<[this := o]> (objects w)) (locks w) (trace w)).

(** [SmartObject(fileName, funcName, lineNum, lockPolicyType)], lines 133-153. *)
Definition SmartObject_ctor (site : CallSite) (lockPolicyType : LockPolicy) : M addr :=
  this ← new_object_storage;
  let refCount := 1 in                                 (* m_refCount=1; *)
  emit (EvCount this refCount) ;;
  LOG_THIS_MSG Allocated (Some site) this refCount ;;
  let lockPolicy := lockPolicyType in                  (* m_lockPolicy=lockPolicyType; *)
  refCounterLock ← lock_for_policy lockPolicyType;     (* switch(lockPolicyType) *)
  init_object this (mkObj refCount refCounterLock lockPolicy) ;;
  mret this.

(** [SmartObject(fileName, funcName, lineNum, const SmartObject& b)], lines 159-179. *)
Definition SmartObject_copy_ctor (site : CallSite) (b : addr) : M addr :=
  this ← new_object_storage;
  let refCount := 1 in                                 (* m_refCount=1; *)
  emit (EvCount this refCount) ;;
  LOG_THIS_MSG Allocated (Some site) this refCount ;;
  lockPolicy ← field m_lockPolicy b;                   (* m_lockPolicy=b.m_lockPolicy; *)
  refCounterLock ← lock_for_policy lockPolicy;         (* switch(m_lockPolicy) *)
  init_object this (mkObj refCount refCounterLock lockPolicy) ;;
  mret this.

(** Modelled from the spec: [SmartObject::operator=] is only declared in
    the header (line 58); its body is in a source file that is not part
    of it.  Assignment copies the payload of derived types only, the base
    contributes nothing, and it returns a reference to the object
    assigned to. *)
Definition SmartObject_assign (this b : addr) : M addr := mret this.

(** ** Histories of calls on one object *)

Inductive Call : Type :=
| CallRetain (site : CallSite)
| CallRelease (site : CallSite).

Definition call (this : addr) (c : Call) : M unit :=
  match c with
  | CallRetain site => Retain site this
  | CallRelease site => Release site this
  end.

Fixpoint calls (this : addr) (cs : list Call) : M unit :=
  match cs with
  | [] => mret tt
  | c :: cs' => call this c ;; calls this cs'
  end.

(** ** Auxiliary notions *)

(** The lock record once [Lock] has returned. *)
Definition acquired (k : LockClass) : BaseLock :=
  mkLock k match k with NoLock => false | _ => true end.

(** The lock class a policy names, read off the constructors' switch. *)
Definition lock_class_of (policy : LockPolicy) : option LockClass :=
  match policy with
  | LOCK_POLICY_CRITICALSECTION => Some CriticalSectionEx
  | LOCK_POLICY_MUTEX => Some Mutex
  | LOCK_POLICY_NONE => Some NoLock
  | LOCK_POLICY_unlisted _ => None
  end.

(** The object is usable: it exists, owns a lock, and the lock is free. *)
Definition ready (w : World) (this : addr) (l : addr) (k : LockClass)
    (policy : LockPolicy) : Prop :=
  (∃ o, objects w !! this = Some o ∧ m_refCounterLock o = Some l ∧
        m_lockPolicy o = policy) ∧
  locks w !! l = Some (mkLock k false).

(** How many times [EP_DELETE this] was started in a trace. *)
Fixpoint deletions (this : addr) (t : list Event) : nat :=
  match t with
  | [] => 0
  | EvDelete x :: t' =>
      if decide (x = this) then S (deletions this t') else deletions this t'
  | _ :: t' => deletions this t'
  end.

(** Owning references after a history, starting from [c] of them: each
    retain adds one, each release gives one back. *)
Fixpoint owners (c : Z) (cs : list Call) : Z :=
  match cs with
  | [] => c
  | CallRetain _ :: cs' => owners (c + 1) cs'
  | CallRelease _ :: cs' => owners (c - 1) cs'
  end.

(** The number of owners never exceeds [INT_MAX] along the history. *)
Fixpoint fits (c : Z) (cs : list Call) : bool :=
  match cs with
  | [] => true
  | CallRetain _ :: cs' => (c + 1 <=? INT_MAX) && fits (c + 1) cs'
  | CallRelease _ :: cs' => fits (c - 1) cs'
  end.

(** The history never gives back the last owning reference. *)
Fixpoint keeps_owner (c : Z) (cs : list Call) : bool :=
  match cs with
  | [] => true
  | CallRetain _ :: cs' => keeps_owner (c + 1) cs'
  | CallRelease _ :: cs' => (2 <=? c) && keeps_owner (c - 1) cs'
  end.

(** An event that is not the write of a negative value to the counter of
    [this]. *)
Definition write_ok (this : addr) (e : Event) : Prop :=
  match e with
  | EvCount x v => x = this → 0 ≤ v
  | _ => True
  end.

(** ** Concrete worlds *)

(** A call site. *)
Definition here : CallSite := mkSite "main.cpp" "main" 42.

(** One object, just constructed with the mutex policy. *)
Definition fresh_world : World :=
  world_of (SmartObject_ctor here LOCK_POLICY_MUTEX empty_world).

(** A live object whose count is already 0. *)
Definition overreleased_world : World :=
  mkWorld {[ 1%positive := mkObj 0 (Some 1%positive) LOCK_POLICY_MUTEX ]}
          {[ 1%positive := mkLock Mutex false ]} [].

(** One object constructed with the critical-section policy and retained
    once: two owners. *)
Definition shared_world : World :=
  world_of ((this ← SmartObject_ctor here LOCK_POLICY_CRITICALSECTION;
             Retain here this) empty_world).

(** Two objects: O with count 1 and P, retained twice, with count 3. *)
Definition two_objects_world : World :=
  world_of ((_ ← SmartObject_ctor here LOCK_POLICY_MUTEX;
             p ← SmartObject_ctor here LOCK_POLICY_NONE;
             Retain here p ;; Retain here p) empty_world).

(** ** The statements under study *)

(** The round trip of C5 for a given number of calls: on an object just
    constructed with a listed policy, [n] retains followed by [n]
    releases all return normally, start no deletion, and leave the
    object store and the lock store as construction left them, the
    object alive with count 1. *)
Definition retain_release_round_trip (n : nat) : Prop :=
  ∀ site policy k w rs qs,
    lock_class_of policy = Some k →
    length rs = n → length qs = n →
    ∃ this l w1 t,
      SmartObject_ctor site policy w = Ok this w1 ∧
      objects w1 !! this = Some (mkObj 1 (Some l) policy) ∧
      calls this (map CallRetain rs ++ map CallRelease qs) w1 =
        Ok tt (mkWorld (objects w1) (locks w1) (trace w1 ++ t)) ∧
      deletions this t = 0%nat.

(** C3 as stated, for [n] retains: after the [n+1] releases that match
    the owning references, one more [Release] throws the domain error. *)
Definition over_release_signals (n : nat) : Prop :=
  ∀ site policy k w rs qs q q',
    lock_class_of policy = Some k →
    length rs = n → length qs = n →
    ∃ this w1 w2 msg w3,
      SmartObject_ctor site policy w = Ok this w1 ∧
      calls this (map CallRetain rs ++ map CallRelease qs ++ [CallRelease q]) w1 =
        Ok tt w2 ∧
      Release q' this w2 = Thrown (domain_error msg) w3.

(** What the code does instead: the release of the last owning reference
    deletes the object, once, and nothing can be called on it after. *)
Definition over_release_is_use_after_delete (n : nat) : Prop :=
  ∀ site policy k w rs qs q,
    lock_class_of policy = Some k →
    length rs = n → length qs = n →
    ∃ this w1 w2 t,
      SmartObject_ctor site policy w = Ok this w1 ∧
      calls this (map CallRetain rs ++ map CallRelease qs ++ [CallRelease q]) w1 =
        Ok tt w2 ∧
      trace w2 = trace w1 ++ t ∧ deletions this t = 1%nat ∧
      objects w2 !! this = None ∧
      (∀ q', Release q' this w2 = Undefined w2) ∧
      (∀ cs, cs ≠ [] → calls this cs w2 = Undefined w2).

(** C9 as stated, for one history: every value the history writes to
    the counter is at least 0, and if the object is there at the end
    its count is at least 0 and is the number of owning references, the
    one of construction included. *)
Definition count_is_outstanding (cs : list Call) : Prop :=
  ∀ site policy k w,
    lock_class_of policy = Some k →
    ∃ this w1 t,
      SmartObject_ctor site policy w = Ok this w1 ∧
      trace (world_of (calls this cs w1)) = trace w1 ++ t ∧
      Forall (write_ok this) t ∧
      ∀ o, objects (world_of (calls this cs w1)) !! this = Some o →
           0 ≤ m_refCount o ∧ m_refCount o = owners 1 cs.

(** C8 as stated, for one policy value: a listed policy gives an object
    with count 1, the policy stored and a lock of the class it names;
    any other value makes construction fail. *)
Definition ctor_rejects_unlisted (policy : LockPolicy) : Prop :=
  ∀ site w,
    match lock_class_of policy with
    | Some k =>
        ∃ this l w',
          SmartObject_ctor site policy w = Ok this w' ∧
          objects w' !! this = Some (mkObj 1 (Some l) policy) ∧
          locks w' !! l = Some (mkLock k false)
    | None => ∀ this w', SmartObject_ctor site policy w ≠ Ok this w'
    end.

(** ** Notions for whole worlds and whole traces *)

(** [w'] differs from [w] at most at the object [this] and at the lock
    [l]. *)
Definition frame (this l : addr) (w w' : World) : Prop :=
  (∀ a, a ≠ this → objects w' !! a = objects w !! a) ∧
  (∀ l', l' ≠ l → locks w' !! l' = locks w !! l').

(** The lock discipline read along a trace, for the object [this] and its
    lock [l]; [held] tells whether a [Lock] call on [l] is waiting for
    its [Unlock].  [Lock] and [Unlock] on [l] alternate, the counter of
    [this] is written only in between, and neither the object nor the
    lock is deleted in between.  The result is the final [held], or
    [None] when the discipline is broken. *)
Fixpoint guarded (l this : addr) (held : bool) (t : list Event) : option bool :=
  match t with
  | [] => Some held
  | e :: t' =>
      match e with
      | EvLock x =>
          if decide (x = l)
          then (if held then None else guarded l this true t')
          else guarded l this held t'
      | EvUnlock x =>
          if decide (x = l)
          then (if held then guarded l this false t' else None)
          else guarded l this held t'
      | EvCount x _ =>
          if decide (x = this)
          then (if held then guarded l this true t' else None)
          else guarded l this held t'
      | EvDelete x | EvFree x =>
          if decide (x = this)
          then (if held then None else guarded l this false t')
          else guarded l this held t'
      | EvDeleteLock x =>
          if decide (x = l)
          then (if held then None else guarded l this false t')
          else guarded l this held t'
      | _ => guarded l this held t'
      end
  end.

(** The diagnostics read along a trace, for the object [this]; [cur] is
    the last value written to its counter, if any.  Every message about
    [this] shows the value written last.  The result is the final
    [cur], or [None] when a message shows anything else. *)
Fixpoint shown (this : addr) (cur : option Z) (t : list Event) : option (option Z) :=
  match t with
  | [] => Some cur
  | e :: t' =>
      match e with
      | EvCount x v =>
          if decide (x = this) then shown this (Some v) t' else shown this cur t'
      | EvLog _ _ x c =>
          if decide (x = this)
          then (if decide (cur = Some c) then shown this cur t' else None)
          else shown this cur t'
      | _ => shown this cur t'
      end
  end.

(** The object at [a] exists and points to the lock [l]. *)
Definition owns (w : World) (a l : addr) : Prop :=
  ∃ o, objects w !! a = Some o ∧ m_refCounterLock o = Some l.

(** Every lock an object points to exists, and no two objects point to
    the same lock. *)
Definition exclusive (w : World) : Prop :=
  (∀ a l, owns w a l → is_Some (locks w !! l)) ∧
  (∀ a b l, owns w a l → owns w b l → a = b).

(** ** Evaluation lemmas *)

Lemma wrap_int_id z : INT_MIN ≤ z ≤ INT_MAX → wrap_int z = z.
Proof.
  unfold INT_MIN, INT_MAX, wrap_int. intros H.
  rewrite Z.mod_small by lia. lia.
Qed.

Lemma wrap_int_range z : INT_MIN ≤ wrap_int z ≤ INT_MAX.
Proof.
  unfold INT_MIN, INT_MAX, wrap_int.
  pose proof (Z.mod_pos_bound (z + 2147483648) 4294967296). lia.
Qed.

Lemma bind_eq {A B} (m : M A) (f : A → M B) w :
  (m ≫= f) w = match m w with
               | Ok a w' => f a w'
               | Thrown e w' => Thrown e w'
               | Undefined w' => Undefined w'
               | Blocked w' => Blocked w'
               end.
Proof. reflexivity. Qed.

Lemma delete_this_eq this w :
  delete_this this w =
    match SmartObject_dtor this
            (mkWorld (objects w) (locks w) (trace w ++ [EvDelete this])) with
    | Ok _ w' => free_object this w'
    | Thrown e w' =>
        match free_object this w' with
        | Ok _ w'' => Thrown e w''
        | r => r
        end
    | r => r
    end.
Proof. reflexivity. Qed.

Lemma field_eq {A} (f : SmartObject → A) this o w :
  objects w !! this = Some o → field f this w = Ok (f o) w.
Proof. intros H. unfold field. by rewrite H. Qed.

Lemma field_gone {A} (f : SmartObject → A) this w :
  objects w !! this = None → field f this w = Undefined w.
Proof. intros H. unfold field. by rewrite H. Qed.

Lemma set_refCount_eq this o v w :
  objects w !! this = Some o →
  set_refCount this v w =
    Ok tt (mkWorld (<[this := with_refCount o v]> (objects w)) (locks w)
                   (trace w ++ [EvCount this v])).
Proof. intros H. unfold set_refCount. by rewrite H. Qed.

Lemma Lock_eq l k w :
  locks w !! l = Some (mkLock k false) →
  BaseLock_Lock (Some l) w =
    Ok tt (mkWorld (objects w) (<[l := acquired k]> (locks w)) (trace w ++ [EvLock l])).
Proof.
  intros H. unfold BaseLock_Lock. rewrite H.
  destruct k; try reflexivity.
  unfold emit, acquired. simpl. by rewrite (insert_id _ _ _ H).
Qed.

Lemma Unlock_eq l k w :
  locks w !! l = Some (acquired k) →
  BaseLock_Unlock (Some l) w =
    Ok tt (mkWorld (objects w) (<[l := mkLock k false]> (locks w))
                   (trace w ++ [EvUnlock l])).
Proof.
  intros H. unfold BaseLock_Unlock. rewrite H.
  destruct k; try reflexivity.
  unfold emit. simpl. by rewrite (insert_id _ _ _ H).
Qed.

Lemma delete_lock_eq l b w :
  locks w !! l = Some b →
  delete_lock l w =
    Ok tt (mkWorld (objects w) (delete l (locks w)) (trace w ++ [EvDeleteLock l])).
Proof. intros H. unfold delete_lock. by rewrite H. Qed.

(** Rewriting a member function applied to a world, one statement at a
    time: [mlast] evaluates the statement in head position, [mstep] the
    first statement of a sequence. *)
Ltac mlast :=
  first
    [ erewrite field_eq by (simpl; first [eassumption | apply lookup_insert_eq])
    | erewrite set_refCount_eq by (simpl; first [eassumption | apply lookup_insert_eq])
    | erewrite Lock_eq by (simpl; first [eassumption | apply lookup_insert_eq])
    | erewrite Unlock_eq by (simpl; first [eassumption | apply lookup_insert_eq])
    | erewrite delete_lock_eq by (simpl; first [eassumption | apply lookup_insert_eq])
    | unfold LOG_THIS_MSG, emit at 1 ];
  cbn [objects locks trace m_refCount m_refCounterLock m_lockPolicy with_refCount].

Ltac mstep := rewrite bind_eq; mlast.

Lemma incr_refCount_eq this o w :
  objects w !! this = Some o →
  incr_refCount this w =
    Ok tt (mkWorld (<[this := with_refCount o (wrap_int (m_refCount o + 1))]> (objects w))
                   (locks w)
                   (trace w ++ [EvCount this (wrap_int (m_refCount o + 1))])).
Proof.
  intros H. unfold incr_refCount. mstep. by erewrite set_refCount_eq.
Qed.

Lemma decr_refCount_eq this o w :
  objects w !! this = Some o →
  decr_refCount this w =
    Ok tt (mkWorld (<[this := with_refCount o (wrap_int (m_refCount o - 1))]> (objects w))
                   (locks w)
                   (trace w ++ [EvCount this (wrap_int (m_refCount o - 1))])).
Proof.
  intros H. unfold decr_refCount. mstep. by erewrite set_refCount_eq.
Qed.

(** Closing an equation between two outcomes: store updates collapse and
    the trace is re-associated. *)
Ltac mworld :=
  cbn [objects locks trace m_refCount m_refCounterLock m_lockPolicy with_refCount];
  rewrite ?insert_insert_eq, ?delete_insert_eq, <- ?app_assoc;
  cbn [app];
  repeat first [ reflexivity | f_equal; [idtac] | progress f_equal ];
  try (by (apply insert_id)); try done.

(** [Retain] on an object whose lock is free. *)
Lemma Retain_eq site this o l k w :
  objects w !! this = Some o →
  m_refCounterLock o = Some l →
  locks w !! l = Some (mkLock k false) →
  let c := wrap_int (m_refCount o + 1) in
  Retain site this w =
    Ok tt (mkWorld (<[this := with_refCount o c]> (objects w)) (locks w)
             (trace w ++ [EvLock l; EvCount this c;
                          EvLog Retained (Some site) this c; EvUnlock l])).
Proof.
  intros Ho Hl Hk c. unfold Retain.
  mstep. rewrite Hl. unfold LockObj_enter, LockObj_leave.
  mstep. rewrite bind_eq. erewrite incr_refCount_eq by (simpl; eassumption).
  cbn [objects locks trace]. mstep. mstep. mlast.
  subst c. mworld.
Qed.

(** The destructor when the final decrement reaches 0. *)
Lemma SmartObject_dtor_eq_zero this o l k w :
  objects w !! this = Some o →
  m_refCounterLock o = Some l →
  locks w !! l = Some (mkLock k false) →
  wrap_int (m_refCount o - 1) = 0 →
  SmartObject_dtor this w =
    Ok tt (mkWorld (<[this := with_refCount o 0]> (objects w)) (delete l (locks w))
             (trace w ++ [EvLock l; EvCount this 0; EvLog Deleted None this 0;
                          EvUnlock l; EvDeleteLock l])).
Proof.
  intros Ho Hl Hk Hc. unfold SmartObject_dtor.
  mstep. rewrite Hl. mstep.
  rewrite bind_eq. erewrite decr_refCount_eq by (simpl; eassumption).
  cbn [objects locks trace]. rewrite Hc.
  mstep. mstep. mstep. rewrite bind_eq. cbn [Z.eqb negb mret M_ret].
  mstep. rewrite Hl. mstep. mstep. rewrite Hl.
  mlast. mworld.
Qed.

(** The destructor when the final decrement does not reach 0. *)
Lemma SmartObject_dtor_eq_nonzero this o l k w :
  objects w !! this = Some o →
  m_refCounterLock o = Some l →
  locks w !! l = Some (mkLock k false) →
  let c := wrap_int (m_refCount o - 1) in
  c ≠ 0 →
  SmartObject_dtor this w =
    Thrown (runtime_error (nonzero_count_msg c))
      (mkWorld (<[this := with_refCount o c]> (objects w)) (<[l := acquired k]> (locks w))
         (trace w ++ [EvLock l; EvCount this c; EvLog Deleted None this c])).
Proof.
  intros Ho Hl Hk c Hc. unfold SmartObject_dtor.
  mstep. rewrite Hl. mstep.
  rewrite bind_eq. erewrite decr_refCount_eq by (simpl; eassumption).
  cbn [objects locks trace]. fold c.
  mstep. mstep. mstep. rewrite bind_eq.
  apply Z.eqb_neq in Hc. rewrite Hc. cbn [negb].
  unfold EP_VERIFY_RUNTIME_ERROR_W_MSG, throw. mworld.
Qed.

(** [Release] while other references remain. *)
Lemma Release_eq_more site this o l k w :
  objects w !! this = Some o →
  m_refCounterLock o = Some l →
  locks w !! l = Some (mkLock k false) →
  let c := wrap_int (m_refCount o - 1) in
  0 < c →
  Release site this w =
    Ok tt (mkWorld (<[this := with_refCount o c]> (objects w)) (locks w)
             (trace w ++ [EvLock l; EvCount this c;
                          EvLog Released (Some site) this c; EvUnlock l])).
Proof.
  intros Ho Hl Hk c Hc. unfold Release.
  mstep. rewrite Hl. mstep.
  rewrite bind_eq. erewrite decr_refCount_eq by (simpl; eassumption).
  cbn [objects locks trace]. fold c.
  mstep. mstep. mstep.
  replace (c =? 0) with false by (symmetry; apply Z.eqb_neq; lia).
  mstep. rewrite bind_eq.
  replace (c <? 0) with false by (symmetry; apply Z.ltb_ge; lia).
  cbn [mret M_ret]. mstep. rewrite Hl. mlast. mworld.
Qed.

(** [Release] when the decrement goes below 0. *)
Lemma Release_eq_negative site this o l k w :
  objects w !! this = Some o →
  m_refCounterLock o = Some l →
  locks w !! l = Some (mkLock k false) →
  let c := wrap_int (m_refCount o - 1) in
  c < 0 →
  Release site this w =
    Thrown (domain_error (negative_count_msg c))
      (mkWorld (<[this := with_refCount o c]> (objects w)) (<[l := acquired k]> (locks w))
         (trace w ++ [EvLock l; EvCount this c; EvLog Released (Some site) this c])).
Proof.
  intros Ho Hl Hk c Hc. unfold Release.
  mstep. rewrite Hl. mstep.
  rewrite bind_eq. erewrite decr_refCount_eq by (simpl; eassumption).
  cbn [objects locks trace]. fold c.
  mstep. mstep. mstep.
  replace (c =? 0) with false by (symmetry; apply Z.eqb_neq; lia).
  mstep. rewrite bind_eq.
  replace (c <? 0) with true by (symmetry; apply Z.ltb_lt; lia).
  replace (0 <=? c) with false by (symmetry; apply Z.leb_gt; lia).
  unfold EP_VERIFY_DOMAIN_ERROR_W_MSG, throw. mworld.
Qed.

(** [Release] of the last reference. *)
Lemma Release_eq_last site this o l k w :
  objects w !! this = Some o →
  m_refCounterLock o = Some l →
  locks w !! l = Some (mkLock k false) →
  wrap_int (m_refCount o - 1) = 0 →
  Release site this w =
    Ok tt (mkWorld (delete this (objects w)) (delete l (locks w))
             (trace w ++ [EvLock l; EvCount this 0; EvLog Released (Some site) this 0;
                          EvCount this 1; EvUnlock l;
                          EvDelete this;
                          EvLock l; EvCount this 0; EvLog Deleted None this 0;
                          EvUnlock l; EvDeleteLock l;
                          EvFree this])).
Proof.
  intros Ho Hl Hk Hc. unfold Release.
  mstep. rewrite Hl. mstep.
  rewrite bind_eq. erewrite decr_refCount_eq by (simpl; eassumption).
  cbn [objects locks trace]. rewrite Hc.
  mstep. mstep. mstep. cbn [Z.eqb].
  rewrite bind_eq. erewrite incr_refCount_eq by (simpl; apply lookup_insert_eq).
  cbn [objects locks trace m_refCount with_refCount].
  change (wrap_int (0 + 1)) with 1.
  mstep. rewrite Hl. mstep.
  rewrite bind_eq, delete_this_eq.
  cbn [objects locks trace].
  erewrite SmartObject_dtor_eq_zero;
    [ | simpl; apply lookup_insert_eq | simpl; eassumption
      | simpl; apply lookup_insert_eq | reflexivity ].
  cbn [objects locks trace m_refCount with_refCount].
  unfold free_object. cbn [objects locks trace].
  rewrite lookup_insert_eq. cbn [objects locks trace mret M_ret].
  mworld.
Qed.

(** Once the object is gone, a call on it does not execute. *)
Lemma call_gone this c w : objects w !! this = None → call this c w = Undefined w.
Proof.
  intros H. destruct c; unfold call, Retain, Release;
    rewrite bind_eq; by erewrite field_gone.
Qed.

Lemma calls_gone this cs w :
  objects w !! this = None → cs ≠ [] → calls this cs w = Undefined w.
Proof.
  intros H Hcs. destruct cs as [|c cs]; [done|].
  cbn [calls]. rewrite bind_eq. by rewrite call_gone.
Qed.

Lemma calls_app this cs1 cs2 w :
  calls this (cs1 ++ cs2) w =
    match calls this cs1 w with
    | Ok _ w' => calls this cs2 w'
    | Thrown e w' => Thrown e w'
    | Undefined w' => Undefined w'
    | Blocked w' => Blocked w'
    end.
Proof.
  revert w. induction cs1 as [|c cs1 IH]; intros w; [reflexivity|].
  cbn [app calls]. rewrite !bind_eq. destruct (call this c w); auto.
Qed.

Lemma lock_for_policy_listed policy k w :
  lock_class_of policy = Some k →
  lock_for_policy policy w = new_lock k w.
Proof. destruct policy; simpl; intros H; by inversion H. Qed.

Lemma lock_for_policy_unlisted policy w :
  lock_class_of policy = None →
  lock_for_policy policy w = Ok None w.
Proof. destruct policy; simpl; intros H; by inversion H. Qed.

Lemma fresh_lock_free (w : World) : locks w !! fresh (dom (locks w)) = None.
Proof. apply not_elem_of_dom, is_fresh. Qed.

Lemma fresh_object_free (w : World) : objects w !! fresh (dom (objects w)) = None.
Proof. apply not_elem_of_dom, is_fresh. Qed.

(** Construction with one of the three listed policies. *)
Lemma SmartObject_ctor_eq site policy k w :
  lock_class_of policy = Some k →
  let this := fresh (dom (objects w)) in
  let l := fresh (dom (locks w)) in
  SmartObject_ctor site policy w =
    Ok this (mkWorld (<[this := mkObj 1 (Some l) policy]> (objects w))
                     (<[l := mkLock k false]> (locks w))
                     (trace w ++ [EvNewObj this; EvCount this 1;
                                  EvLog Allocated (Some site) this 1; EvNewLock l k])).
Proof.
  intros Hk this l. unfold SmartObject_ctor.
  rewrite bind_eq. unfold new_object_storage at 1. fold this.
  mstep. mstep. rewrite bind_eq, (lock_for_policy_listed _ _ _ Hk).
  unfold new_lock. cbn [objects locks trace]. fold l.
  rewrite bind_eq. unfold init_object. cbn [objects locks trace mret M_ret].
  mworld.
Qed.

(** Construction with any other policy value. *)
Lemma SmartObject_ctor_eq_unlisted site policy w :
  lock_class_of policy = None →
  let this := fresh (dom (objects w)) in
  SmartObject_ctor site policy w =
    Ok this (mkWorld (<[this := mkObj 1 None policy]> (objects w)) (locks w)
                     (trace w ++ [EvNewObj this; EvCount this 1;
                                  EvLog Allocated (Some site) this 1])).
Proof.
  intros Hk this. unfold SmartObject_ctor.
  rewrite bind_eq. unfold new_object_storage at 1. fold this.
  mstep. mstep. rewrite bind_eq, (lock_for_policy_unlisted _ _ Hk).
  rewrite bind_eq. unfold init_object. cbn [objects locks trace mret M_ret].
  mworld.
Qed.

(** ** At most one deletion *)

Lemma deletions_app this t1 t2 :
  deletions this (t1 ++ t2) = (deletions this t1 + deletions this t2)%nat.
Proof.
  induction t1 as [|e t1 IH]; [reflexivity|].
  destruct e; cbn [app deletions]; try apply IH.
  case_decide; rewrite IH; reflexivity.
Qed.

Lemma wrap_int_trichotomy z :
  0 < wrap_int z ∨ wrap_int z = 0 ∨ wrap_int z < 0.
Proof. lia. Qed.

(** One call on a usable object: either the object stays usable and the
    call started no deletion, or the call was the [Release] that deleted
    it, or the call threw. *)
Lemma call_step this l k p c w :
  ready w this l k p →
  (∃ w' t, call this c w = Ok tt w' ∧ ready w' this l k p ∧
           trace w' = trace w ++ t ∧ deletions this t = 0%nat) ∨
  (∃ w' t, call this c w = Ok tt w' ∧ objects w' !! this = None ∧
           trace w' = trace w ++ t ∧ deletions this t = 1%nat) ∨
  (∃ e w' t, call this c w = Thrown e w' ∧
             trace w' = trace w ++ t ∧ deletions this t = 0%nat).
Proof.
  intros [(o & Ho & Hl & Hp) Hk]. destruct c as [site|site]; cbn [call].
  - left. eexists _, _. split; [by eapply Retain_eq|].
    split; [|split; [reflexivity|reflexivity]].
    split; [|exact Hk]. eexists. split; [apply lookup_insert_eq|by split].
  - destruct (wrap_int_trichotomy (m_refCount o - 1)) as [Hc|[Hc|Hc]].
    + left. eexists _, _. split; [by eapply Release_eq_more|].
      split; [|split; [reflexivity|reflexivity]].
      split; [|exact Hk]. eexists. split; [apply lookup_insert_eq|by split].
    + right; left. eexists _, _. split; [by eapply Release_eq_last|].
      split; [apply lookup_delete_eq|]. split; [reflexivity|].
      cbn [deletions]. by case_decide.
    + right; right. eexists _, _, _. split; [by eapply Release_eq_negative|].
      split; reflexivity.
Qed.

(** In every history on a usable object [EP_DELETE this] is started at
    most once, and not at all if the object is still there at the end. *)
Lemma calls_deletions this l k p cs : ∀ w,
  ready w this l k p →
  ∃ t, trace (world_of (calls this cs w)) = trace w ++ t ∧
       (deletions this t ≤ 1)%nat ∧
       (∀ w', calls this cs w = Ok tt w' → is_Some (objects w' !! this) →
              deletions this t = 0%nat ∧ ready w' this l k p).
Proof.
  induction cs as [|c cs IH]; intros w Hr.
  - exists []. cbn. rewrite app_nil_r. split; [done|]. split; [lia|].
    intros w' Hw' _. by inversion Hw'; subst.
  - cbn [calls]. rewrite bind_eq.
    destruct (call_step this l k p c w Hr)
      as [(w1 & t1 & E & Hr1 & Ht & Hd)|[(w1 & t1 & E & Hg & Ht & Hd)|(e & w1 & t1 & E & Ht & Hd)]];
      rewrite E.
    + destruct (IH w1 Hr1) as (t2 & Ht2 & Hd2 & Hal).
      exists (t1 ++ t2). rewrite Ht2, Ht, <- app_assoc. split; [done|].
      rewrite deletions_app, Hd. split; [lia|].
      intros w' Hw' Hs. destruct (Hal w' Hw' Hs) as [-> ?]. done.
    + destruct cs as [|c' cs].
      * exists t1. cbn. split; [done|]. split; [lia|].
        intros w' Hw' Hs. inversion Hw'; subst. rewrite Hg in Hs.
        by destruct Hs.
      * rewrite (calls_gone _ _ _ Hg) by done.
        exists t1. cbn. split; [done|]. split; [lia|]. intros w' Hw'. inversion Hw'.
    + exists t1. cbn. split; [done|]. split; [lia|]. intros w' Hw'. inversion Hw'.
Qed.

(** C1.  For every live object whose count is 1 (owning a free lock),
    [Release] decrements the count to 0, unlocks the counter lock before
    [EP_DELETE this] starts, and deletes the object exactly once within
    that call, leaving it and its lock gone.  No earlier call of any
    history that led to this object had started a deletion, and no later
    call does: a call on the deleted object does not execute. *)
Theorem Release_last_reference_deletes_once site this o l k w :
  objects w !! this = Some o →
  m_refCount o = 1 →
  m_refCounterLock o = Some l →
  locks w !! l = Some (mkLock k false) →
  ∃ w',
    Release site this w = Ok tt w' ∧
    trace w' = trace w ++
      [EvLock l; EvCount this 0; EvLog Released (Some site) this 0;
       EvCount this 1; EvUnlock l;
       EvDelete this;
       EvLock l; EvCount this 0; EvLog Deleted None this 0;
       EvUnlock l; EvDeleteLock l;
       EvFree this] ∧
    objects w' !! this = None ∧
    locks w' !! l = None ∧
    (∀ w0 cs t p, ready w0 this l k p → calls this cs w0 = Ok tt w →
                trace w = trace w0 ++ t → deletions this t = 0%nat) ∧
    (∀ cs, cs ≠ [] → calls this cs w' = Undefined w').
Proof.
  intros Ho Hc Hl Hk. eexists. split.
  { eapply Release_eq_last; eauto. by rewrite Hc. }
  cbn [objects locks trace]. split; [reflexivity|].
  split; [apply lookup_delete_eq|]. split; [apply lookup_delete_eq|]. split.
  - intros w0 cs t p Hr Hcs Ht.
    destruct (calls_deletions this l k p cs w0 Hr) as (t' & Ht' & _ & Hal).
    rewrite Hcs in Ht'. cbn in Ht'. rewrite Ht in Ht'.
    apply app_inv_head in Ht'. subst t'.
    by destruct (Hal w Hcs (ex_intro _ o Ho)).
  - intros cs Hcs. apply calls_gone; [apply lookup_delete_eq|done].
Qed.

(** C10.  On the zero-crossing path [Release] has put the count back to 1
    and released the lock when [EP_DELETE this] starts.  [Release] then
    ends in the very world that the destructor, run from there, and the
    return of the storage produce: the destructor's own decrement writes
    exactly 0, its check is not taken and it returns normally, so
    [Release] returns normally, with the object and its lock gone, and
    never leaves through the destructor's runtime error. *)
Theorem Release_zero_crossing_pairs_with_dtor site this o l k w :
  objects w !! this = Some o →
  m_refCount o = 1 →
  m_refCounterLock o = Some l →
  locks w !! l = Some (mkLock k false) →
  let w1 := mkWorld (<[this := with_refCount o 1]> (objects w)) (locks w)
              (trace w ++ [EvLock l; EvCount this 0;
                           EvLog Released (Some site) this 0;
                           EvCount this 1; EvUnlock l]) in
  let w2 := mkWorld (objects w1) (locks w1) (trace w1 ++ [EvDelete this]) in
  Release site this w = delete_this this w1 ∧
  (∃ w3 w4,
     SmartObject_dtor this w2 = Ok tt w3 ∧
     objects w3 !! this = Some (with_refCount o 0) ∧
     trace w3 = trace w2 ++ [EvLock l; EvCount this 0; EvLog Deleted None this 0;
                             EvUnlock l; EvDeleteLock l] ∧
     free_object this w3 = Ok tt w4 ∧
     Release site this w = Ok tt w4 ∧
     objects w4 !! this = None ∧
     locks w4 !! l = None ∧
     trace w4 = trace w ++
       [EvLock l; EvCount this 0; EvLog Released (Some site) this 0;
        EvCount this 1; EvUnlock l;
        EvDelete this;
        EvLock l; EvCount this 0; EvLog Deleted None this 0;
        EvUnlock l; EvDeleteLock l;
        EvFree this]) ∧
  (∀ msg w', Release site this w ≠ Thrown (runtime_error msg) w').
Proof.
  intros Ho Hc Hl Hk w1 w2.
  assert (Hz : wrap_int (m_refCount o - 1) = 0) by (by rewrite Hc).
  set (w3 := mkWorld (<[this := with_refCount o 0]> (objects w))
               (delete l (locks w))
               (trace w2 ++ [EvLock l; EvCount this 0; EvLog Deleted None this 0;
                             EvUnlock l; EvDeleteLock l])).
  assert (Hd : SmartObject_dtor this w2 = Ok tt w3).
  { erewrite SmartObject_dtor_eq_zero;
      [ | simpl; apply lookup_insert_eq | simpl; eassumption
        | simpl; eassumption | reflexivity ].
    subst w3 w2 w1. mworld. }
  set (w4 := mkWorld (delete this (objects w3)) (locks w3) (trace w3 ++ [EvFree this])).
  assert (Hf : free_object this w3 = Ok tt w4).
  { unfold free_object. cbn [objects w3]. by rewrite lookup_insert_eq. }
  assert (Hr : Release site this w = Ok tt w4).
  { erewrite Release_eq_last by eauto. subst w4 w3 w2 w1. mworld. }
  split; [|split].
  - rewrite Hr, delete_this_eq. fold w2. by rewrite Hd.
  - exists w3, w4. split; [exact Hd|]. split; [apply lookup_insert_eq|].
    split; [reflexivity|]. split; [exact Hf|]. split; [exact Hr|].
    split; [apply lookup_delete_eq|]. split; [apply lookup_delete_eq|].
    subst w4 w3 w2 w1. cbn [trace]. by rewrite <- !app_assoc.
  - intros msg w'. by rewrite Hr.
Qed.

Lemma Release_last_reference_deletes_once_witness :
  objects fresh_world !! 1%positive = Some (mkObj 1 (Some 1%positive) LOCK_POLICY_MUTEX) ∧
  ∃ w', Release here 1%positive fresh_world = Ok tt w' ∧
        objects w' !! 1%positive = None ∧
        deletions 1%positive (trace w') = 1%nat.
Proof.
  split; [reflexivity|].
  destruct (Release_last_reference_deletes_once here 1%positive
              (mkObj 1 (Some 1%positive) LOCK_POLICY_MUTEX) 1%positive Mutex fresh_world)
    as (w' & E & Ht & Hg & _); [reflexivity..|].
  exists w'. split; [exact E|]. split; [exact Hg|].
  rewrite Ht. reflexivity.
Defined.

Lemma Release_zero_crossing_pairs_with_dtor_witness :
  objects fresh_world !! 1%positive = Some (mkObj 1 (Some 1%positive) LOCK_POLICY_MUTEX) ∧
  (∃ w4, Release here 1%positive fresh_world = Ok tt w4 ∧
         objects w4 !! 1%positive = None ∧
         trace w4 = trace fresh_world ++
           [EvLock 1; EvCount 1 0; EvLog Released (Some here) 1 0;
            EvCount 1 1; EvUnlock 1;
            EvDelete 1;
            EvLock 1; EvCount 1 0; EvLog Deleted None 1 0;
            EvUnlock 1; EvDeleteLock 1;
            EvFree 1]) ∧
  ∀ msg w', Release here 1%positive fresh_world ≠ Thrown (runtime_error msg) w'.
Proof.
  split; [reflexivity|].
  destruct (Release_zero_crossing_pairs_with_dtor here 1%positive
              (mkObj 1 (Some 1%positive) LOCK_POLICY_MUTEX) 1%positive Mutex fresh_world)
    as (_ & (w3 & w4 & _ & _ & _ & _ & Hr & Hg & _ & Ht) & Hn); [reflexivity..|].
  split; [|exact Hn].
  exists w4. split; [exact Hr|]. split; [exact Hg|exact Ht].
Defined.

(** ** The two error paths *)

(** C2.  [Release] on a live object whose count is 0 (mutex policy):
    the count becomes -1 and a domain error carrying -1 is thrown; the
    object is still there, but the exception leaves the function before
    the [Unlock] of line 124: no unlock event, and the lock stays held. *)
Theorem Release_below_zero_leaves_lock_held :
  Release here 1%positive overreleased_world =
    Thrown (domain_error "Reference Count is negative Value! Reference Count : -1")
      (mkWorld {[ 1%positive := mkObj (-1) (Some 1%positive) LOCK_POLICY_MUTEX ]}
               {[ 1%positive := mkLock Mutex true ]}
               [EvLock 1; EvCount 1 (-1); EvLog Released (Some here) 1 (-1)]).
Proof. vm_compute. reflexivity. Qed.

(** C4.  The destructor run directly on an object with two owners: the
    decrement leaves 1, a runtime error carrying 1 is thrown, and the
    exception leaves the destructor before the [Unlock] of line 195 and
    the [EP_DELETE] of line 198: the lock stays held and is not freed. *)
Theorem dtor_with_owners_left_keeps_lock :
  ∃ w', SmartObject_dtor 1%positive shared_world =
          Thrown (runtime_error "The Reference Count is not 0!! Reference Count : 1") w' ∧
        objects w' !! 1%positive =
          Some (mkObj 1 (Some 1%positive) LOCK_POLICY_CRITICALSECTION) ∧
        locks w' !! 1%positive = Some (mkLock CriticalSectionEx true) ∧
        trace w' = trace shared_world ++
                   [EvLock 1; EvCount 1 1; EvLog Deleted None 1 1].
Proof. eexists. repeat split; vm_compute; reflexivity. Qed.

(** ** Runs of retains and of releases *)

Lemma wrap_int_add_l a b : wrap_int (wrap_int a + b) = wrap_int (a + b).
Proof.
  unfold wrap_int.
  replace ((a + 2147483648) mod 4294967296 - 2147483648 + b + 2147483648)
    with ((a + 2147483648) mod 4294967296 + b) by lia.
  rewrite Z.add_mod_idemp_l by lia.
  f_equal. f_equal. lia.
Qed.

Lemma with_refCount_same o : with_refCount o (m_refCount o) = o.
Proof. by destruct o. Qed.

Lemma world_unchanged w this o :
  objects w !! this = Some o →
  mkWorld (<[this := with_refCount o (m_refCount o)]> (objects w)) (locks w)
          (trace w ++ []) = w.
Proof.
  intros H. rewrite with_refCount_same, (insert_id _ _ _ H), app_nil_r.
  by destruct w.
Qed.

(** [n] retains in a row add [n] to the counter, modulo the width of
    [int]. *)
Lemma retains_eq this l k rs : ∀ w o,
  objects w !! this = Some o →
  m_refCounterLock o = Some l →
  locks w !! l = Some (mkLock k false) →
  INT_MIN ≤ m_refCount o ≤ INT_MAX →
  ∃ t, calls this (map CallRetain rs) w =
         Ok tt (mkWorld (<[this := with_refCount o
                                     (wrap_int (m_refCount o + Z.of_nat (length rs)))]>
                           (objects w))
                        (locks w) (trace w ++ t)) ∧
       deletions this t = 0%nat.
Proof.
  induction rs as [|site rs IH]; intros w o Ho Hl Hk Hc.
  - exists []. split; [|reflexivity]. cbn [map calls length].
    rewrite Z.add_0_r, wrap_int_id by done.
    by rewrite world_unchanged.
  - cbn [map calls call]. rewrite bind_eq.
    erewrite Retain_eq by eauto.
    set (o1 := with_refCount o (wrap_int (m_refCount o + 1))).
    edestruct (IH (mkWorld (<[this := o1]> (objects w)) (locks w)
                    (trace w ++ [EvLock l; EvCount this (m_refCount o1);
                                 EvLog Retained (Some site) this (m_refCount o1);
                                 EvUnlock l])) o1) as (t & E & Hd);
      [apply lookup_insert_eq|exact Hl|exact Hk|apply wrap_int_range|].
    eexists. split.
    + etransitivity; [exact E|].
      cbn [objects locks trace m_refCount with_refCount o1].
      rewrite insert_insert_eq, wrap_int_add_l, <- app_assoc.
      do 3 f_equal. unfold with_refCount. cbn. do 2 f_equal. lia.
    + rewrite deletions_app, Hd. reflexivity.
Qed.

(** [n] releases in a row that leave at least one reference subtract [n]
    from the counter; none of them deletes or throws. *)
Lemma releases_eq this l k qs : ∀ w o,
  objects w !! this = Some o →
  m_refCounterLock o = Some l →
  locks w !! l = Some (mkLock k false) →
  m_refCount o ≤ INT_MAX →
  1 ≤ m_refCount o - Z.of_nat (length qs) →
  ∃ t, calls this (map CallRelease qs) w =
         Ok tt (mkWorld (<[this := with_refCount o (m_refCount o - Z.of_nat (length qs))]>
                           (objects w))
                        (locks w) (trace w ++ t)) ∧
       deletions this t = 0%nat.
Proof.
  induction qs as [|site qs IH]; intros w o Ho Hl Hk Hmax Hc.
  - exists []. split; [|reflexivity]. cbn [map calls length].
    rewrite Z.sub_0_r. by rewrite world_unchanged.
  - cbn [map calls call]. rewrite bind_eq. cbn [length] in Hc.
    assert (Hw : wrap_int (m_refCount o - 1) = m_refCount o - 1)
      by (apply wrap_int_id; unfold INT_MIN, INT_MAX in *; lia).
    erewrite Release_eq_more by (eauto; lia). rewrite Hw.
    set (o1 := with_refCount o (m_refCount o - 1)).
    edestruct (IH (mkWorld (<[this := o1]> (objects w)) (locks w)
                    (trace w ++ [EvLock l; EvCount this (m_refCount o1);
                                 EvLog Released (Some site) this (m_refCount o1);
                                 EvUnlock l])) o1) as (t & E & Hd);
      [apply lookup_insert_eq|exact Hl|exact Hk|cbn; lia|cbn; lia|].
    eexists. split.
    + etransitivity; [exact E|].
      cbn [objects locks trace m_refCount with_refCount o1].
      rewrite insert_insert_eq, <- app_assoc.
      replace (m_refCount o - 1 - Z.of_nat (length qs))
        with (m_refCount o - Z.of_nat (length (site :: qs))) by (cbn [length]; lia).
      reflexivity.
    + rewrite deletions_app, Hd. reflexivity.
Qed.

(** C5 (amended).  For every n with 1 + n <= INT_MAX, n retains followed
    by n releases on a freshly constructed object leave it alive with
    count 1; none of the 2n calls deletes it or throws. *)
Theorem retain_release_round_trip_in_range n :
  Z.of_nat n ≤ INT_MAX - 1 → retain_release_round_trip n.
Proof.
  intros Hn site policy k w rs qs Hk Hrs Hqs.
  set (this := fresh (dom (objects w))). set (l := fresh (dom (locks w))).
  set (o := mkObj 1 (Some l) policy).
  pose proof (SmartObject_ctor_eq site policy k w Hk) as Hctor.
  cbv zeta in Hctor. fold this l o in Hctor.
  set (w1 := mkWorld (<[this := o]> (objects w)) (<[l := mkLock k false]> (locks w))
               (trace w ++ [EvNewObj this; EvCount this 1;
                            EvLog Allocated (Some site) this 1; EvNewLock l k])) in *.
  assert (Ho : objects w1 !! this = Some o) by apply lookup_insert_eq.
  assert (Hl : locks w1 !! l = Some (mkLock k false)) by apply lookup_insert_eq.
  destruct (retains_eq this l k rs w1 o Ho eq_refl Hl) as (t1 & E1 & Hd1);
    [unfold INT_MIN, INT_MAX; cbn; lia|].
  rewrite Hrs in E1. cbn [m_refCount o] in E1.
  rewrite wrap_int_id in E1 by (unfold INT_MIN, INT_MAX in *; lia).
  set (o2 := with_refCount o (1 + Z.of_nat n)) in *.
  set (w2 := mkWorld (<[this := o2]> (objects w1)) (locks w1) (trace w1 ++ t1)) in *.
  destruct (releases_eq this l k qs w2 o2) as (t2 & E2 & Hd2);
    [apply lookup_insert_eq|reflexivity|exact Hl|cbn; lia|cbn; lia|].
  exists this, l, w1, (t1 ++ t2). split; [exact Hctor|]. split; [exact Ho|]. split.
  - rewrite calls_app, E1, E2. rewrite Hqs.
    cbn [objects locks trace m_refCount o2 with_refCount w2].
    rewrite insert_insert_eq, <- app_assoc.
    replace (1 + Z.of_nat n - Z.of_nat n) with 1 by lia.
    fold (with_refCount o 1). change (with_refCount o 1) with o.
    by rewrite (insert_id _ _ _ Ho).
  - rewrite deletions_app, Hd1, Hd2. reflexivity.
Qed.

Lemma retain_release_round_trip_in_range_witness :
  Z.of_nat 3 ≤ INT_MAX - 1 ∧ retain_release_round_trip 3.
Proof.
  split; [unfold INT_MAX; lia|].
  apply (retain_release_round_trip_in_range 3). unfold INT_MAX. lia.
Defined.

Lemma fresh_world_object :
  objects fresh_world !! 1%positive = Some (mkObj 1 (Some 1%positive) LOCK_POLICY_MUTEX).
Proof. reflexivity. Qed.

Lemma fresh_world_lock :
  locks fresh_world !! 1%positive = Some (mkLock Mutex false).
Proof. reflexivity. Qed.

Lemma fresh_world_ctor this w1 :
  SmartObject_ctor here LOCK_POLICY_MUTEX empty_world = Ok this w1 →
  this = 1%positive ∧ w1 = fresh_world.
Proof.
  intros H. split.
  - vm_compute in H. by inversion H.
  - unfold fresh_world. by rewrite H.
Qed.

(** C5 fails at n = 2^31, on the object of [fresh_world] (mutex policy,
    every call from the site [here]): the retains wrap the counter to
    INT_MIN + 1, and the first release throws the domain error. *)
Lemma retain_release_round_trip_overflow :
  (∃ w', calls 1%positive
           (map CallRetain (replicate (N.to_nat 2147483648) here) ++
            map CallRelease (replicate (N.to_nat 2147483648) here)) fresh_world =
         Thrown (domain_error (negative_count_msg INT_MIN)) w') ∧
  ¬ retain_release_round_trip (N.to_nat 2147483648).
Proof.
  remember (N.to_nat 2147483648) as n eqn:En.
  assert (Hn : Z.of_nat n = 2147483648) by (subst n; by rewrite N_nat_Z).
  clear En.
  assert (Hrun : ∃ w', calls 1%positive
                   (map CallRetain (replicate n here) ++
                    map CallRelease (replicate n here)) fresh_world =
                 Thrown (domain_error (negative_count_msg INT_MIN)) w').
  { destruct (retains_eq 1%positive 1%positive Mutex (replicate n here) fresh_world _
                fresh_world_object eq_refl fresh_world_lock)
      as (t1 & E1 & _); [unfold INT_MIN, INT_MAX; cbn; lia|].
    rewrite length_replicate, Hn in E1. cbn [m_refCount] in E1.
    change (wrap_int (1 + 2147483648)) with (-2147483647) in E1.
    rewrite calls_app, E1.
    destruct n as [|m]; [lia|]. cbn [replicate map calls call].
    rewrite bind_eq.
    erewrite Release_eq_negative;
      [ | apply lookup_insert_eq | reflexivity | exact fresh_world_lock
        | cbn; reflexivity ].
    eexists. reflexivity. }
  split; [exact Hrun|].
  intros H.
  destruct (H here LOCK_POLICY_MUTEX Mutex empty_world
              (replicate n here) (replicate n here) eq_refl)
    as (this & l & w1 & t & Hctor & _ & E & _);
    [apply length_replicate..|].
  apply fresh_world_ctor in Hctor as [-> ->].
  destruct Hrun as (w' & Hrun). rewrite Hrun in E. discriminate E.
Qed.

(** C3 (amended).  With n retains, 1 + n <= INT_MAX, the n+1 releases
    that match the owning references return normally and the last of
    them deletes the object.  One more [Release] is a call on a deleted
    object: it is undefined, it does not throw the domain error, and no
    later call executes either. *)
Theorem over_release_is_use_after_delete_in_range n :
  Z.of_nat n ≤ INT_MAX - 1 → over_release_is_use_after_delete n.
Proof.
  intros Hn site policy k w rs qs q Hk Hrs Hqs.
  set (this := fresh (dom (objects w))). set (l := fresh (dom (locks w))).
  set (o := mkObj 1 (Some l) policy).
  pose proof (SmartObject_ctor_eq site policy k w Hk) as Hctor.
  cbv zeta in Hctor. fold this l o in Hctor.
  set (w1 := mkWorld (<[this := o]> (objects w)) (<[l := mkLock k false]> (locks w))
               (trace w ++ [EvNewObj this; EvCount this 1;
                            EvLog Allocated (Some site) this 1; EvNewLock l k])) in *.
  assert (Ho : objects w1 !! this = Some o) by apply lookup_insert_eq.
  assert (Hl : locks w1 !! l = Some (mkLock k false)) by apply lookup_insert_eq.
  destruct (retains_eq this l k rs w1 o Ho eq_refl Hl) as (t1 & E1 & Hd1);
    [unfold INT_MIN, INT_MAX; cbn; lia|].
  rewrite Hrs in E1. cbn [m_refCount o] in E1.
  rewrite wrap_int_id in E1 by (unfold INT_MIN, INT_MAX in *; lia).
  set (o2 := with_refCount o (1 + Z.of_nat n)) in *.
  set (w2 := mkWorld (<[this := o2]> (objects w1)) (locks w1) (trace w1 ++ t1)) in *.
  destruct (releases_eq this l k qs w2 o2) as (t2 & E2 & Hd2);
    [apply lookup_insert_eq|reflexivity|exact Hl|cbn; lia|cbn; lia|].
  rewrite Hqs in E2. cbn [m_refCount o2 with_refCount] in E2.
  replace (1 + Z.of_nat n - Z.of_nat n) with 1 in E2 by lia.
  set (o3 := with_refCount o2 1) in *.
  set (w3 := mkWorld (<[this := o3]> (objects w2)) (locks w2) (trace w2 ++ t2)) in *.
  pose proof (Release_eq_last q this o3 l k w3) as E3.
  specialize (E3 (lookup_insert_eq _ _ _) eq_refl Hl eq_refl).
  eexists this, w1, _, _. split; [exact Hctor|]. split.
  { rewrite calls_app, E1, calls_app, E2. cbn [calls call].
    rewrite bind_eq, E3. reflexivity. }
  cbn [objects locks trace w3 w2]. split.
  { rewrite <- !app_assoc. reflexivity. }
  split.
  { rewrite !deletions_app, Hd1, Hd2. cbn [deletions]. by case_decide. }
  split; [apply lookup_delete_eq|].
  split.
  - intros q'. apply (call_gone this (CallRelease q')). apply lookup_delete_eq.
  - intros cs Hcs. apply calls_gone; [apply lookup_delete_eq|done].
Qed.

Lemma over_release_is_use_after_delete_in_range_witness :
  Z.of_nat 2 ≤ INT_MAX - 1 ∧ over_release_is_use_after_delete 2.
Proof.
  split; [unfold INT_MAX; lia|].
  apply (over_release_is_use_after_delete_in_range 2). unfold INT_MAX. lia.
Defined.

(** C3 fails already without any retain, on the object of
    [fresh_world]: the first [Release] deletes the object, the second
    one is a call on a deleted object and throws nothing. *)
Lemma over_release_does_not_signal :
  (∃ w2, Release here 1%positive fresh_world = Ok tt w2 ∧
         objects w2 !! 1%positive = None ∧
         Release here 1%positive w2 = Undefined w2) ∧
  ¬ over_release_signals 0.
Proof.
  split.
  - eexists. split; [vm_compute; reflexivity|].
    split; vm_compute; reflexivity.
  - intros H.
    destruct (H here LOCK_POLICY_MUTEX Mutex empty_world [] [] here here
                eq_refl eq_refl eq_refl)
      as (this & w1 & w2 & msg & w3 & Hctor & E & Hthrow).
    apply fresh_world_ctor in Hctor as [-> ->].
    vm_compute in E. inversion E; subst w2. clear E.
    vm_compute in Hthrow. discriminate Hthrow.
Qed.

(** ** The counter against the number of owners *)

Lemma calls_in_range this l k cs : ∀ w o,
  objects w !! this = Some o →
  m_refCounterLock o = Some l →
  locks w !! l = Some (mkLock k false) →
  1 ≤ m_refCount o ≤ INT_MAX →
  fits (m_refCount o) cs = true →
  ∃ t, trace (world_of (calls this cs w)) = trace w ++ t ∧
       Forall (write_ok this) t ∧
       ∀ o', objects (world_of (calls this cs w)) !! this = Some o' →
             1 ≤ m_refCount o' ∧ m_refCount o' = owners (m_refCount o) cs.
Proof.
  induction cs as [|c cs IH]; intros w o Ho Hl Hk Hc Hfit.
  - exists []. cbn. rewrite app_nil_r. split; [done|]. split; [constructor|].
    intros o' Ho'. rewrite Ho in Ho'. inversion Ho'; subst. lia.
  - destruct c as [site|site]; cbn [calls call owners fits] in *; rewrite bind_eq.
    + apply andb_prop in Hfit as [Hle Hfit]. apply Z.leb_le in Hle.
      assert (Hw : wrap_int (m_refCount o + 1) = m_refCount o + 1)
        by (apply wrap_int_id; unfold INT_MIN, INT_MAX in *; lia).
      erewrite Retain_eq by eauto. rewrite Hw.
      set (o1 := with_refCount o (m_refCount o + 1)).
      edestruct (IH (mkWorld (<[this := o1]> (objects w)) (locks w)
                      (trace w ++ [EvLock l; EvCount this (m_refCount o + 1);
                                   EvLog Retained (Some site) this (m_refCount o + 1);
                                   EvUnlock l])) o1) as (t & Ht & Hok & Hend);
        [apply lookup_insert_eq|exact Hl|exact Hk|cbn; lia|exact Hfit|].
      eexists. split; [rewrite Ht; cbn [trace]; by rewrite <- app_assoc|].
      split; [|exact Hend].
      apply Forall_app. split; [|exact Hok].
      repeat constructor. cbn. lia.
    + destruct (decide (m_refCount o = 1)) as [H1|H1].
      * erewrite Release_eq_last by (eauto; by rewrite H1).
        set (w' := mkWorld (delete this (objects w)) _ _).
        assert (Hg : objects w' !! this = None) by apply lookup_delete_eq.
        assert (Hw' : world_of (calls this cs w') = w').
        { destruct cs; [reflexivity|]. by rewrite calls_gone. }
        rewrite Hw'. eexists. split; [reflexivity|]. split.
        -- repeat constructor; cbn; lia.
        -- intros o' Ho'. rewrite Hg in Ho'. discriminate.
      * assert (Hw : wrap_int (m_refCount o - 1) = m_refCount o - 1)
          by (apply wrap_int_id; unfold INT_MIN, INT_MAX in *; lia).
        erewrite Release_eq_more by (eauto; lia). rewrite Hw.
        set (o1 := with_refCount o (m_refCount o - 1)).
        edestruct (IH (mkWorld (<[this := o1]> (objects w)) (locks w)
                        (trace w ++ [EvLock l; EvCount this (m_refCount o - 1);
                                     EvLog Released (Some site) this (m_refCount o - 1);
                                     EvUnlock l])) o1) as (t & Ht & Hok & Hend);
          [apply lookup_insert_eq|exact Hl|exact Hk|cbn; lia|exact Hfit|].
        eexists. split; [rewrite Ht; cbn [trace]; by rewrite <- app_assoc|].
        split; [|exact Hend].
        apply Forall_app. split; [|exact Hok].
        repeat constructor. cbn. lia.
Qed.

Lemma calls_keep_alive this l k cs : ∀ w o,
  objects w !! this = Some o →
  m_refCounterLock o = Some l →
  locks w !! l = Some (mkLock k false) →
  1 ≤ m_refCount o ≤ INT_MAX →
  fits (m_refCount o) cs = true →
  keeps_owner (m_refCount o) cs = true →
  ∃ w', calls this cs w = Ok tt w' ∧
        objects w' !! this = Some (with_refCount o (owners (m_refCount o) cs)).
Proof.
  induction cs as [|c cs IH]; intros w o Ho Hl Hk Hc Hfit Hkeep.
  - exists w. split; [reflexivity|]. cbn. by rewrite with_refCount_same.
  - destruct c as [site|site]; cbn [calls call owners fits keeps_owner] in *;
      rewrite bind_eq.
    + apply andb_prop in Hfit as [Hle Hfit]. apply Z.leb_le in Hle.
      assert (Hw : wrap_int (m_refCount o + 1) = m_refCount o + 1)
        by (apply wrap_int_id; unfold INT_MIN, INT_MAX in *; lia).
      erewrite Retain_eq by eauto. rewrite Hw.
      eapply (IH _ (with_refCount o (m_refCount o + 1)));
        [apply lookup_insert_eq|exact Hl|exact Hk|cbn; lia|exact Hfit|exact Hkeep].
    + apply andb_prop in Hkeep as [Hge Hkeep]. apply Z.leb_le in Hge.
      assert (Hw : wrap_int (m_refCount o - 1) = m_refCount o - 1)
        by (apply wrap_int_id; unfold INT_MIN, INT_MAX in *; lia).
      erewrite Release_eq_more by (eauto; lia). rewrite Hw.
      eapply (IH _ (with_refCount o (m_refCount o - 1)));
        [apply lookup_insert_eq|exact Hl|exact Hk|cbn; lia|exact Hfit|exact Hkeep].
Qed.

(** C9 (amended).  For every object constructed with a listed policy and
    every history of retains and releases along which the number of
    owning references never exceeds INT_MAX: every value written to the
    counter is at least 0, and while the object is there its count is
    at least 0 and is the number of owning references, the one of
    construction included.  The object is there, with that count, after
    every such history that never gives back the last owning
    reference. *)
Theorem count_is_outstanding_in_range cs :
  fits 1 cs = true →
  count_is_outstanding cs ∧
  (keeps_owner 1 cs = true →
   ∀ site policy k w,
     lock_class_of policy = Some k →
     ∃ this l w1 w',
       SmartObject_ctor site policy w = Ok this w1 ∧
       calls this cs w1 = Ok tt w' ∧
       objects w' !! this = Some (mkObj (owners 1 cs) (Some l) policy)).
Proof.
  intros Hfit. split; [|intros Hkeep]; intros site policy k w Hk.
  2: { pose proof (SmartObject_ctor_eq site policy k w Hk) as Hctor.
       cbv zeta in Hctor.
       set (this := fresh (dom (objects w))) in *.
       set (l := fresh (dom (locks w))) in *.
       set (o := mkObj 1 (Some l) policy) in *.
       set (w1 := mkWorld (<[this := o]> (objects w)) _ _) in *.
       destruct (calls_keep_alive this l k cs w1 o) as (w' & E & Ho');
         [ apply lookup_insert_eq | reflexivity | apply lookup_insert_eq
         | unfold INT_MAX; cbn; lia | exact Hfit | exact Hkeep | ].
       exists this, l, w1, w'. split; [exact Hctor|]. split; [exact E|exact Ho']. }
  pose proof (SmartObject_ctor_eq site policy k w Hk) as Hctor. cbv zeta in Hctor.
  set (this := fresh (dom (objects w))) in *. set (l := fresh (dom (locks w))) in *.
  set (o := mkObj 1 (Some l) policy) in *.
  set (w1 := mkWorld (<[this := o]> (objects w)) _ _) in *.
  destruct (calls_in_range this l k cs w1 o) as (t & Ht & Hok & Hend);
    [ apply lookup_insert_eq | reflexivity | apply lookup_insert_eq
    | unfold INT_MAX; cbn; lia | exact Hfit | ].
  exists this, w1, t. split; [exact Hctor|]. split; [exact Ht|]. split; [exact Hok|].
  intros o' Ho'. destruct (Hend o' Ho') as [H1 H2]. cbn [m_refCount o] in H2. lia.
Qed.

Lemma count_is_outstanding_in_range_witness :
  fits 1 [CallRetain here; CallRelease here; CallRetain here] = true ∧
  count_is_outstanding [CallRetain here; CallRelease here; CallRetain here].
Proof.
  split; [reflexivity|].
  apply (count_is_outstanding_in_range
           [CallRetain here; CallRelease here; CallRetain here]).
  reflexivity.
Defined.

(** C9 fails after 2^31 - 1 retains on the object of [fresh_world]: the
    object is alive and its counter has wrapped to INT_MIN, which is
    neither at least 0 nor the number of owning references. *)
Lemma count_is_outstanding_overflow :
  (∃ w' o, calls 1%positive
             (map CallRetain (replicate (N.to_nat 2147483647) here)) fresh_world =
           Ok tt w' ∧
           objects w' !! 1%positive = Some o ∧ m_refCount o = INT_MIN) ∧
  ¬ count_is_outstanding (map CallRetain (replicate (N.to_nat 2147483647) here)).
Proof.
  remember (N.to_nat 2147483647) as n eqn:En.
  assert (Hn : Z.of_nat n = 2147483647) by (subst n; by rewrite N_nat_Z).
  clear En.
  destruct (retains_eq 1%positive 1%positive Mutex (replicate n here) fresh_world _
              fresh_world_object eq_refl fresh_world_lock)
    as (t1 & E1 & _); [unfold INT_MIN, INT_MAX; cbn; lia|].
  rewrite length_replicate, Hn in E1. cbn [m_refCount] in E1.
  change (wrap_int (1 + 2147483647)) with INT_MIN in E1.
  split.
  - eexists _, _. split; [exact E1|]. split; [apply lookup_insert_eq|reflexivity].
  - intros H.
    destruct (H here LOCK_POLICY_MUTEX Mutex empty_world eq_refl)
      as (this & w1 & t & Hctor & _ & _ & Hend).
    apply fresh_world_ctor in Hctor as [-> ->].
    rewrite E1 in Hend. cbn [world_of objects] in Hend.
    destruct (Hend _ (lookup_insert_eq _ _ _)) as [Hneg _].
    cbn in Hneg. unfold INT_MIN in Hneg. lia.
Qed.

(** ** Construction, copy and assignment *)

(** C6.  Copy construction from any source object (which, like every
    object of the data model, owns a lock in the lock store and has a
    listed policy): the copy starts with count 1 whatever the source's
    count, carries the source's policy, and owns a lock of the class the
    policy names that did not exist before, so it is not the source's;
    the source object and its lock are left as they were. *)
Theorem SmartObject_copy_ctor_independent site b ob lb blk k w :
  objects w !! b = Some ob →
  m_refCounterLock ob = Some lb →
  locks w !! lb = Some blk →
  lock_class_of (m_lockPolicy ob) = Some k →
  ∃ this l w',
    SmartObject_copy_ctor site b w = Ok this w' ∧
    objects w' !! this = Some (mkObj 1 (Some l) (m_lockPolicy ob)) ∧
    this ≠ b ∧ l ≠ lb ∧
    locks w !! l = None ∧
    locks w' !! l = Some (mkLock k false) ∧
    objects w' !! b = Some ob ∧
    locks w' !! lb = Some blk.
Proof.
  intros Hb Hlb Hblk Hk.
  set (this := fresh (dom (objects w))). set (l := fresh (dom (locks w))).
  assert (Hthis : objects w !! this = None) by apply fresh_object_free.
  assert (Hl : locks w !! l = None) by apply fresh_lock_free.
  assert (Hne : this ≠ b) by (intros ->; congruence).
  assert (Hnl : l ≠ lb) by (intros ->; congruence).
  exists this, l. eexists. split.
  { unfold SmartObject_copy_ctor.
    rewrite bind_eq. unfold new_object_storage at 1. fold this.
    mstep. mstep. mstep.
    rewrite bind_eq, (lock_for_policy_listed _ _ _ Hk).
    unfold new_lock. cbn [objects locks trace]. fold l.
    rewrite bind_eq. unfold init_object. cbn [objects locks trace mret M_ret].
    reflexivity. }
  cbn [objects locks].
  split; [apply lookup_insert_eq|]. split; [exact Hne|]. split; [exact Hnl|].
  split; [exact Hl|]. split; [apply lookup_insert_eq|].
  split; [by rewrite lookup_insert_ne|by rewrite lookup_insert_ne].
Qed.

Lemma SmartObject_copy_ctor_independent_witness :
  objects shared_world !! 1%positive =
    Some (mkObj 2 (Some 1%positive) LOCK_POLICY_CRITICALSECTION) ∧
  ∃ this l w',
    SmartObject_copy_ctor here 1%positive shared_world = Ok this w' ∧
    objects w' !! this = Some (mkObj 1 (Some l) LOCK_POLICY_CRITICALSECTION) ∧
    l ≠ 1%positive.
Proof.
  split; [reflexivity|].
  destruct (SmartObject_copy_ctor_independent here 1%positive
              (mkObj 2 (Some 1%positive) LOCK_POLICY_CRITICALSECTION) 1%positive
              (mkLock CriticalSectionEx false) CriticalSectionEx shared_world)
    as (this & l & w' & E & Ho & _ & Hl & _); [reflexivity..|].
  exists this, l, w'. split; [exact E|]. split; [exact Ho|exact Hl].
Defined.

(** C7.  Assignment returns the object assigned to and leaves the world
    as it was: the count, the lock and the policy of both operands, and
    every lock, are unchanged. *)
Theorem SmartObject_assign_changes_nothing this b w :
  ∃ w',
    SmartObject_assign this b w = Ok this w' ∧
    objects w' !! this = objects w !! this ∧
    objects w' !! b = objects w !! b ∧
    locks w' = locks w.
Proof. exists w. by repeat split. Qed.

Example SmartObject_assign_counts :
  ∃ w',
    SmartObject_assign 1%positive 2%positive two_objects_world = Ok 1%positive w' ∧
    m_refCount <$> objects two_objects_world !! 1%positive = Some 1 ∧
    m_refCount <$> objects two_objects_world !! 2%positive = Some 3 ∧
    m_refCount <$> objects w' !! 1%positive = Some 1 ∧
    m_refCount <$> objects w' !! 2%positive = Some 3.
Proof. eexists. split; [reflexivity|]. by vm_compute. Qed.

Lemma call_null_lock this o c w :
  objects w !! this = Some o →
  m_refCounterLock o = None →
  call this c w = Undefined w.
Proof.
  intros Ho Hl. destruct c; unfold call, Retain, Release;
    mstep; rewrite Hl; reflexivity.
Qed.

(** C8 (amended).  Construction has no error path at all.  It returns a
    new object with count 1 and the policy stored as given; for the
    three listed policies the object owns a new, free lock of the class
    the policy names; for any other value the lock pointer is NULL and
    no lock is made.  The stored policy is never changed by a retain or
    a release. *)
Theorem SmartObject_ctor_total site policy w :
  ∃ this w',
    SmartObject_ctor site policy w = Ok this w' ∧
    objects w !! this = None ∧
    match lock_class_of policy with
    | Some k =>
        ∃ l, objects w' !! this = Some (mkObj 1 (Some l) policy) ∧
             locks w !! l = None ∧
             locks w' !! l = Some (mkLock k false)
    | None =>
        objects w' !! this = Some (mkObj 1 None policy) ∧ locks w' = locks w
    end ∧
    (∀ cs w'' o, calls this cs w' = Ok tt w'' → objects w'' !! this = Some o →
                 m_lockPolicy o = policy).
Proof.
  destruct (lock_class_of policy) as [k|] eqn:Hk.
  - eexists _, _. split; [by apply SmartObject_ctor_eq|].
    split; [apply fresh_object_free|]. cbn [objects locks]. split.
    + eexists. split; [apply lookup_insert_eq|].
      split; [apply fresh_lock_free|apply lookup_insert_eq].
    + intros cs w'' o Hcs Ho.
      match type of Hcs with
      | calls _ _ ?w1 = _ =>
          destruct (calls_deletions (fresh (dom (objects w))) (fresh (dom (locks w)))
                      k policy cs w1) as (t & _ & _ & Hal)
      end.
      { split; [|cbn [locks]; apply lookup_insert_eq].
        eexists. split; [cbn [objects]; apply lookup_insert_eq|by split]. }
      destruct (Hal w'' Hcs (ex_intro _ o Ho)) as [_ [(o' & Ho' & _ & Hp) _]].
      congruence.
  - eexists _, _. split; [by apply SmartObject_ctor_eq_unlisted|].
    split; [apply fresh_object_free|]. cbn [objects locks]. split.
    + split; [apply lookup_insert_eq|reflexivity].
    + intros cs w'' o Hcs Ho. destruct cs as [|c cs].
      * inversion Hcs; subst w''. cbn [objects] in Ho.
        rewrite lookup_insert_eq in Ho. by inversion Ho.
      * cbn [calls] in Hcs. rewrite bind_eq in Hcs.
        erewrite call_null_lock in Hcs;
          [discriminate|cbn [objects]; apply lookup_insert_eq|reflexivity].
Qed.

(** C8 fails for a value outside the three enumerators: construction
    returns normally, with a NULL lock pointer and no lock made. *)
Lemma ctor_accepts_unlisted :
  SmartObject_ctor here (LOCK_POLICY_unlisted 3) empty_world =
    Ok 1%positive
       (mkWorld {[ 1%positive := mkObj 1 None (LOCK_POLICY_unlisted 3) ]} ∅
                [EvNewObj 1; EvCount 1 1; EvLog Allocated (Some here) 1 1]) ∧
  ¬ ctor_rejects_unlisted (LOCK_POLICY_unlisted 3).
Proof.
  split; [vm_compute; reflexivity|].
  intros H. specialize (H here empty_world). cbn [lock_class_of] in H.
  eapply H. vm_compute. reflexivity.
Qed.

(** ** One call, in full *)

Lemma guarded_app l this t1 t2 : ∀ held,
  guarded l this held (t1 ++ t2) =
    match guarded l this held t1 with
    | Some held' => guarded l this held' t2
    | None => None
    end.
Proof.
  induction t1 as [|e t1 IH]; intros held; [reflexivity|].
  destruct e; cbn [app guarded]; repeat case_decide; destruct held; auto.
Qed.

Lemma frame_refl this l w : frame this l w w.
Proof. by split. Qed.

Lemma frame_trans this l w1 w2 w3 :
  frame this l w1 w2 → frame this l w2 w3 → frame this l w1 w3.
Proof.
  intros [Ho1 Hl1] [Ho2 Hl2]. split.
  - intros a Ha. by rewrite Ho2, Ho1.
  - intros l' Hl'. by rewrite Hl2, Hl1.
Qed.

Ltac guarded_eval :=
  cbn [guarded]; rewrite ?decide_True by reflexivity; reflexivity.

Ltac frame_eval :=
  split; [intros ? ? | intros ? ?]; cbn [objects locks];
  rewrite ?lookup_insert_ne, ?lookup_delete_ne by done; done.

(** What one call on a usable object does to the world and to the trace:
    it touches only the object and its lock, it keeps the lock
    discipline, and it either leaves the object usable, or deletes the
    object and its lock, or throws with the lock call still open. *)
Lemma call_summary this l k p c w :
  ready w this l k p →
  frame this l w (world_of (call this c w)) ∧
  ∃ t, trace (world_of (call this c w)) = trace w ++ t ∧
    ((∃ w', call this c w = Ok tt w' ∧ ready w' this l k p ∧
            guarded l this false t = Some false) ∨
     (∃ w', call this c w = Ok tt w' ∧
            objects w' !! this = None ∧ locks w' !! l = None ∧
            guarded l this false t = Some false) ∨
     (∃ e w', call this c w = Thrown e w' ∧
              owns w' this l ∧ is_Some (locks w' !! l) ∧
              guarded l this false t = Some true)).
Proof.
  intros [(o & Ho & Hl & Hp) Hk]. destruct c as [site|site]; cbn [call].
  - erewrite Retain_eq by eauto. cbn [world_of objects locks trace]. split.
    { frame_eval. }
    eexists. split; [reflexivity|]. left. eexists. split; [reflexivity|].
    split; [|guarded_eval].
    split; [|exact Hk]. eexists. split; [apply lookup_insert_eq|by split].
  - destruct (wrap_int_trichotomy (m_refCount o - 1)) as [Hc|[Hc|Hc]].
    + erewrite Release_eq_more by eauto. cbn [world_of objects locks trace]. split.
      { frame_eval. }
      eexists. split; [reflexivity|]. left. eexists. split; [reflexivity|].
      split; [|guarded_eval].
      split; [|exact Hk]. eexists. split; [apply lookup_insert_eq|by split].
    + erewrite Release_eq_last by eauto. cbn [world_of objects locks trace]. split.
      { frame_eval. }
      eexists. split; [reflexivity|]. right; left. eexists. split; [reflexivity|].
      cbn [objects locks]. split; [apply lookup_delete_eq|].
      split; [apply lookup_delete_eq|guarded_eval].
    + erewrite Release_eq_negative by eauto. cbn [world_of objects locks trace]. split.
      { frame_eval. }
      eexists. split; [reflexivity|]. right; right. eexists _, _.
      split; [reflexivity|]. cbn [objects locks].
      split; [eexists; split; [apply lookup_insert_eq|exact Hl]|].
      split; [rewrite lookup_insert_eq; by eexists|guarded_eval].
Qed.

Lemma ready_owns w this l k p : ready w this l k p → owns w this l.
Proof. intros [(o & Ho & Hl & _) _]. by exists o. Qed.

Lemma ready_intro w this o l k :
  objects w !! this = Some o →
  m_refCounterLock o = Some l →
  locks w !! l = Some (mkLock k false) →
  ready w this l k (m_lockPolicy o).
Proof. intros Ho Hl Hk. split; [|exact Hk]. by exists o. Qed.

Lemma owns_unique w a l1 l2 : owns w a l1 → owns w a l2 → l1 = l2.
Proof. intros (o1 & H1 & E1) (o2 & H2 & E2). congruence. Qed.

(** Exclusive ownership survives any change that touches only one
    object and its lock, as long as the object keeps its lock or is
    gone. *)
Lemma exclusive_kept this l w w' :
  exclusive w →
  owns w this l →
  frame this l w w' →
  (owns w' this l ∧ is_Some (locks w' !! l)) ∨ objects w' !! this = None →
  exclusive w'.
Proof.
  intros [Hlive Hinj] Hthis [Fo Fl] Hcase.
  assert (Hback : ∀ a l0, a ≠ this → owns w' a l0 → owns w a l0).
  { intros a l0 Ha (o & Ho & E). exists o. by rewrite <- (Fo a Ha). }
  assert (Hown : ∀ l0, owns w' this l0 → l0 = l ∧ is_Some (locks w' !! l)).
  { intros l0 H0. destruct Hcase as [[H1 H2]|Hg].
    - split; [by eapply owns_unique|done].
    - destruct H0 as (o & Ho & _). congruence. }
  split.
  - intros a l0 H0. destruct (decide (a = this)) as [->|Ha].
    + by destruct (Hown l0 H0) as [-> ?].
    + pose proof (Hback a l0 Ha H0) as Hw.
      assert (l0 ≠ l) by (intros ->; apply Ha; by eapply Hinj).
      rewrite Fl by done. by eapply Hlive.
  - intros a b l0 Ha Hb.
    destruct (decide (a = this)) as [->|Na], (decide (b = this)) as [->|Nb]; [done|..].
    + destruct (Hown l0 Ha) as [-> _]. symmetry. eapply Hinj; [by eapply Hback|done].
    + destruct (Hown l0 Hb) as [-> _]. eapply Hinj; [by eapply Hback|done].
    + eapply Hinj; by eapply Hback.
Qed.

(** What a whole history on a usable object does: it touches only the
    object and its lock, keeps the lock discipline (the lock call is
    left open exactly when the history ended in a throw), and keeps
    ownership of locks exclusive. *)
Lemma calls_summary this l k p cs : ∀ w,
  ready w this l k p →
  frame this l w (world_of (calls this cs w)) ∧
  (∃ t held, trace (world_of (calls this cs w)) = trace w ++ t ∧
             guarded l this false t = Some held ∧
             (held = true ↔ ∃ e w', calls this cs w = Thrown e w')) ∧
  (exclusive w → exclusive (world_of (calls this cs w))).
Proof.
  induction cs as [|c cs IH]; intros w Hr.
  - cbn. split; [apply frame_refl|]. split; [|done].
    exists [], false. rewrite app_nil_r. split; [done|]. split; [done|].
    split; [done|]. intros (e & w' & H). discriminate H.
  - destruct (call_summary this l k p c w Hr) as (Hf & t1 & Ht1 & Hcase).
    cbn [calls]. rewrite bind_eq.
    destruct Hcase as [(w1 & E & Hr1 & Hg)|[(w1 & E & Hgo & Hgl & Hg)|(e & w1 & E & Ho & Hl & Hg)]];
      rewrite E in *; cbn [world_of] in Hf, Ht1.
    + destruct (IH w1 Hr1) as (Hf2 & (t2 & held & Ht2 & Hg2 & Hh) & Hex).
      split; [by eapply frame_trans|]. split.
      * exists (t1 ++ t2), held. rewrite Ht2, Ht1, <- app_assoc. split; [done|].
        rewrite guarded_app, Hg. by split.
      * intros Hexw. apply Hex. eapply exclusive_kept; eauto using ready_owns.
        left. split; [by eapply ready_owns|]. destruct Hr1 as [_ ->]. by eexists.
    + assert (Hw : calls this cs w1 = Ok tt w1 ∨ calls this cs w1 = Undefined w1).
      { destruct cs; [by left|right; by apply calls_gone]. }
      assert (Hwo : world_of (calls this cs w1) = w1) by (by destruct Hw as [-> | ->]).
      rewrite Hwo. split; [done|]. split.
      * exists t1, false. split; [done|]. split; [done|]. split; [done|].
        intros (e & w' & H). destruct Hw as [Hw|Hw]; rewrite Hw in H; discriminate H.
      * intros Hexw. eapply exclusive_kept; eauto using ready_owns.
    + cbn [world_of]. split; [done|]. split.
      * exists t1, true. split; [done|]. split; [done|]. split; [|done].
        intros _. by eexists _, _.
      * intros Hexw. eapply exclusive_kept; eauto using ready_owns.
Qed.

(** ** More evaluation lemmas *)

(** Copy construction from a live source with a listed policy. *)
Lemma SmartObject_copy_ctor_eq site b ob k w :
  objects w !! b = Some ob →
  lock_class_of (m_lockPolicy ob) = Some k →
  let this := fresh (dom (objects w)) in
  let l := fresh (dom (locks w)) in
  SmartObject_copy_ctor site b w =
    Ok this (mkWorld (<[this := mkObj 1 (Some l) (m_lockPolicy ob)]> (objects w))
                     (<[l := mkLock k false]> (locks w))
                     (trace w ++ [EvNewObj this; EvCount this 1;
                                  EvLog Allocated (Some site) this 1; EvNewLock l k])).
Proof.
  intros Hb Hk this l. unfold SmartObject_copy_ctor.
  rewrite bind_eq. unfold new_object_storage at 1. fold this.
  mstep. mstep. mstep.
  rewrite bind_eq, (lock_for_policy_listed _ _ _ Hk).
  unfold new_lock. cbn [objects locks trace]. fold l.
  rewrite bind_eq. unfold init_object. cbn [objects locks trace mret M_ret].
  mworld.
Qed.

(** Copy construction from a live source whose policy is not listed. *)
Lemma SmartObject_copy_ctor_eq_unlisted site b ob w :
  objects w !! b = Some ob →
  lock_class_of (m_lockPolicy ob) = None →
  let this := fresh (dom (objects w)) in
  SmartObject_copy_ctor site b w =
    Ok this (mkWorld (<[this := mkObj 1 None (m_lockPolicy ob)]> (objects w)) (locks w)
                     (trace w ++ [EvNewObj this; EvCount this 1;
                                  EvLog Allocated (Some site) this 1])).
Proof.
  intros Hb Hk this. unfold SmartObject_copy_ctor.
  rewrite bind_eq. unfold new_object_storage at 1. fold this.
  mstep. mstep. mstep.
  rewrite bind_eq, (lock_for_policy_unlisted _ _ Hk).
  rewrite bind_eq. unfold init_object. cbn [objects locks trace mret M_ret].
  mworld.
Qed.

(** Copy construction from a source that no longer exists stops at the
    read of [b.m_lockPolicy]. *)
Lemma SmartObject_copy_ctor_eq_gone site b w :
  objects w !! b = None →
  let this := fresh (dom (objects w)) in
  SmartObject_copy_ctor site b w =
    Undefined (mkWorld (objects w) (locks w)
                 (trace w ++ [EvNewObj this; EvCount this 1;
                              EvLog Allocated (Some site) this 1])).
Proof.
  intros Hb this. unfold SmartObject_copy_ctor.
  rewrite bind_eq. unfold new_object_storage at 1. fold this.
  mstep. mstep. rewrite bind_eq.
  erewrite field_gone by (cbn [objects]; exact Hb).
  mworld.
Qed.

(** [EP_DELETE this] on an object with a single owner. *)
Lemma delete_this_eq_one this o l k w :
  objects w !! this = Some o →
  m_refCounterLock o = Some l →
  locks w !! l = Some (mkLock k false) →
  wrap_int (m_refCount o - 1) = 0 →
  delete_this this w =
    Ok tt (mkWorld (delete this (objects w)) (delete l (locks w))
             (trace w ++ [EvDelete this;
                          EvLock l; EvCount this 0; EvLog Deleted None this 0;
                          EvUnlock l; EvDeleteLock l;
                          EvFree this])).
Proof.
  intros Ho Hl Hk Hc. rewrite delete_this_eq.
  erewrite SmartObject_dtor_eq_zero; [ | simpl; eassumption.. ].
  cbn [objects locks trace]. unfold free_object. cbn [objects locks trace].
  rewrite lookup_insert_eq. mworld.
Qed.


(** The destructor of an object whose lock pointer is NULL stops at the
    [Lock] call of line 186. *)
Lemma SmartObject_dtor_null_lock this o w :
  objects w !! this = Some o →
  m_refCounterLock o = None →
  SmartObject_dtor this w = Undefined w.
Proof.
  intros Ho Hl. unfold SmartObject_dtor. mstep. rewrite Hl. reflexivity.
Qed.

(** ** Interleaved retains and releases *)

Lemma owners_perm cs1 cs2 : cs1 ≡ₚ cs2 → ∀ c, owners c cs1 = owners c cs2.
Proof.
  induction 1 as [|x l1 l2 _ IH|x y l|l1 l2 l3 _ IH1 _ IH2]; intros c.
  - reflexivity.
  - destruct x; cbn [owners]; apply IH.
  - destruct x, y; cbn [owners]; f_equal; lia.
  - by rewrite IH1.
Qed.

(** A history that fits and never gives back the last owning reference
    changes the world at the counter only. *)
Lemma calls_keep_alive_world this l k cs : ∀ w o,
  objects w !! this = Some o →
  m_refCounterLock o = Some l →
  locks w !! l = Some (mkLock k false) →
  1 ≤ m_refCount o ≤ INT_MAX →
  fits (m_refCount o) cs = true →
  keeps_owner (m_refCount o) cs = true →
  ∃ t, calls this cs w =
         Ok tt (mkWorld (<[this := with_refCount o (owners (m_refCount o) cs)]> (objects w))
                        (locks w) (trace w ++ t)) ∧
       deletions this t = 0%nat.
Proof.
  induction cs as [|c cs IH]; intros w o Ho Hl Hk Hc Hfit Hkeep.
  - exists []. split; [|reflexivity]. cbn [calls owners]. by rewrite world_unchanged.
  - destruct c as [site|site]; cbn [calls call owners fits keeps_owner] in *;
      rewrite bind_eq.
    + apply andb_prop in Hfit as [Hle Hfit]. apply Z.leb_le in Hle.
      assert (Hw : wrap_int (m_refCount o + 1) = m_refCount o + 1)
        by (apply wrap_int_id; unfold INT_MIN, INT_MAX in *; lia).
      erewrite Retain_eq by eauto. rewrite Hw.
      edestruct (IH (mkWorld (<[this := with_refCount o (m_refCount o + 1)]> (objects w))
                       (locks w)
                       (trace w ++ [EvLock l; EvCount this (m_refCount o + 1);
                                    EvLog Retained (Some site) this (m_refCount o + 1);
                                    EvUnlock l]))
                    (with_refCount o (m_refCount o + 1))) as (t & E & Hd);
        [apply lookup_insert_eq|exact Hl|exact Hk|cbn; lia|exact Hfit|exact Hkeep|].
      eexists. split.
      * etransitivity; [exact E|].
        cbn [objects locks trace m_refCount with_refCount].
        by rewrite insert_insert_eq, <- app_assoc.
      * rewrite deletions_app, Hd. reflexivity.
    + apply andb_prop in Hkeep as [Hge Hkeep]. apply Z.leb_le in Hge.
      assert (Hw : wrap_int (m_refCount o - 1) = m_refCount o - 1)
        by (apply wrap_int_id; unfold INT_MIN, INT_MAX in *; lia).
      erewrite Release_eq_more by (eauto; lia). rewrite Hw.
      edestruct (IH (mkWorld (<[this := with_refCount o (m_refCount o - 1)]> (objects w))
                       (locks w)
                       (trace w ++ [EvLock l; EvCount this (m_refCount o - 1);
                                    EvLog Released (Some site) this (m_refCount o - 1);
                                    EvUnlock l]))
                    (with_refCount o (m_refCount o - 1))) as (t & E & Hd);
        [apply lookup_insert_eq|exact Hl|exact Hk|cbn; lia|exact Hfit|exact Hkeep|].
      eexists. split.
      * etransitivity; [exact E|].
        cbn [objects locks trace m_refCount with_refCount].
        by rewrite insert_insert_eq, <- app_assoc.
      * rewrite deletions_app, Hd. reflexivity.
Qed.

(** X1.  Retains and releases compose by their numbers, not their order.
    On a usable object with count c, every history that stays within
    [int] and never gives back the last owning reference returns
    normally, starts no deletion and changes the object store at the
    counter only, which ends at c + retains - releases; the lock store
    is as before.  Any reordering of the history that meets the same two
    conditions ends in the same stores, and a history with as many
    releases as retains leaves both stores as they were. *)
Theorem calls_compose_by_count this o l k w cs :
  objects w !! this = Some o →
  m_refCounterLock o = Some l →
  locks w !! l = Some (mkLock k false) →
  1 ≤ m_refCount o ≤ INT_MAX →
  fits (m_refCount o) cs = true →
  keeps_owner (m_refCount o) cs = true →
  (∃ t, calls this cs w =
          Ok tt (mkWorld (<[this := with_refCount o (owners (m_refCount o) cs)]> (objects w))
                         (locks w) (trace w ++ t)) ∧
        deletions this t = 0%nat) ∧
  (∀ cs', cs ≡ₚ cs' →
          fits (m_refCount o) cs' = true → keeps_owner (m_refCount o) cs' = true →
          objects (world_of (calls this cs' w)) = objects (world_of (calls this cs w)) ∧
          locks (world_of (calls this cs' w)) = locks (world_of (calls this cs w))) ∧
  (owners (m_refCount o) cs = m_refCount o →
   objects (world_of (calls this cs w)) = objects w ∧
   locks (world_of (calls this cs w)) = locks w).
Proof.
  intros Ho Hl Hk Hc Hfit Hkeep.
  destruct (calls_keep_alive_world this l k cs w o Ho Hl Hk Hc Hfit Hkeep)
    as (t & E & Hd).
  split; [by exists t|]. split.
  - intros cs' Hp Hfit' Hkeep'.
    destruct (calls_keep_alive_world this l k cs' w o Ho Hl Hk Hc Hfit' Hkeep')
      as (t' & E' & _).
    rewrite E, E'. cbn [world_of objects locks].
    by rewrite (owners_perm _ _ Hp).
  - intros Hbal. rewrite E. cbn [world_of objects locks]. rewrite Hbal.
    by rewrite with_refCount_same, (insert_id _ _ _ Ho).
Qed.

Lemma calls_compose_by_count_witness :
  ∃ t, calls 1%positive [CallRetain here; CallRelease here; CallRetain here] fresh_world =
         Ok tt (mkWorld (<[1%positive := mkObj 2 (Some 1%positive) LOCK_POLICY_MUTEX]>
                           (objects fresh_world))
                        (locks fresh_world) (trace fresh_world ++ t)) ∧
       deletions 1%positive t = 0%nat.
Proof.
  apply (calls_compose_by_count 1%positive
           (mkObj 1 (Some 1%positive) LOCK_POLICY_MUTEX) 1%positive Mutex fresh_world
           [CallRetain here; CallRelease here; CallRetain here]);
    first [reflexivity | by (unfold INT_MAX; cbn; lia)].
Defined.

(** X2.  A whole life leaves nothing behind.  Construct an object with a
    listed policy, run any history that stays within [int], never gives
    back the last owning reference and ends with the construction
    reference alone, then release that reference: every call returns
    normally, and the object store and the lock store are exactly what
    they were before the construction. *)
Theorem life_cycle_restores_stores site policy k w cs q :
  lock_class_of policy = Some k →
  fits 1 cs = true →
  keeps_owner 1 cs = true →
  owners 1 cs = 1 →
  ∃ this w1 w2,
    SmartObject_ctor site policy w = Ok this w1 ∧
    calls this (cs ++ [CallRelease q]) w1 = Ok tt w2 ∧
    objects w2 = objects w ∧
    locks w2 = locks w.
Proof.
  intros Hk Hfit Hkeep Hbal.
  pose proof (SmartObject_ctor_eq site policy k w Hk) as Hctor. cbv zeta in Hctor.
  set (this := fresh (dom (objects w))) in *. set (l := fresh (dom (locks w))) in *.
  set (o := mkObj 1 (Some l) policy) in *.
  set (w1 := mkWorld (<[this := o]> (objects w)) _ _) in *.
  destruct (calls_keep_alive_world this l k cs w1 o) as (t & E & _);
    [ apply lookup_insert_eq | reflexivity | apply lookup_insert_eq
    | unfold INT_MAX; cbn; lia | exact Hfit | exact Hkeep | ].
  cbn [m_refCount o] in E. rewrite Hbal in E.
  eexists this, w1, _. split; [exact Hctor|]. split.
  { rewrite calls_app, E. cbn [calls call]. rewrite bind_eq.
    erewrite Release_eq_last;
      [reflexivity | apply lookup_insert_eq | reflexivity
      | cbn [locks w1]; apply lookup_insert_eq | reflexivity ]. }
  cbn [objects locks w1]. split.
  - rewrite delete_insert_eq, delete_insert_eq. apply delete_id, fresh_object_free.
  - rewrite delete_insert_eq. apply delete_id, fresh_lock_free.
Qed.

Lemma life_cycle_restores_stores_witness :
  ∃ this w1 w2,
    SmartObject_ctor here LOCK_POLICY_NONE fresh_world = Ok this w1 ∧
    calls this ([CallRetain here; CallRetain here; CallRelease here; CallRelease here]
                ++ [CallRelease here]) w1 = Ok tt w2 ∧
    objects w2 = objects fresh_world ∧
    locks w2 = locks fresh_world.
Proof.
  apply (life_cycle_restores_stores here LOCK_POLICY_NONE NoLock fresh_world
           [CallRetain here; CallRetain here; CallRelease here; CallRelease here] here);
    reflexivity.
Defined.

(** ** Objects side by side *)

(** X3.  Calls on one object never touch another.  Whatever history of
    retains and releases runs on a usable object, and however it ends
    (normally, with the object deleted, in a throw, or on the deleted
    object), every other object and every lock but the object's own are
    exactly as before. *)
Theorem calls_touch_only_own_object this o l k w cs :
  objects w !! this = Some o →
  m_refCounterLock o = Some l →
  locks w !! l = Some (mkLock k false) →
  (∀ a, a ≠ this → objects (world_of (calls this cs w)) !! a = objects w !! a) ∧
  (∀ l', l' ≠ l → locks (world_of (calls this cs w)) !! l' = locks w !! l').
Proof.
  intros Ho Hl Hk.
  by destruct (calls_summary this l k _ cs w (ready_intro w this o l k Ho Hl Hk))
    as [Hf _].
Qed.

Lemma calls_touch_only_own_object_witness :
  objects (world_of (calls 2%positive [CallRelease here; CallRelease here; CallRelease here]
                       two_objects_world)) !! 1%positive =
    objects two_objects_world !! 1%positive.
Proof.
  apply (calls_touch_only_own_object 2%positive
           (mkObj 3 (Some 2%positive) LOCK_POLICY_NONE) 2%positive NoLock
           two_objects_world [CallRelease here; CallRelease here; CallRelease here]);
    first [reflexivity | done].
Defined.

(** X4.  The counter is written only under the lock.  Along the events of
    every history of retains and releases on a usable object, [Lock] and
    [Unlock] on the object's lock alternate, every write to the counter
    falls between a [Lock] and its [Unlock], and neither the object nor
    the lock is deleted in between.  The last [Lock] is left without its
    [Unlock] exactly when the history ended in a throw. *)
Theorem calls_keep_lock_discipline this o l k w cs :
  objects w !! this = Some o →
  m_refCounterLock o = Some l →
  locks w !! l = Some (mkLock k false) →
  ∃ t held,
    trace (world_of (calls this cs w)) = trace w ++ t ∧
    guarded l this false t = Some held ∧
    (held = true ↔ ∃ e w', calls this cs w = Thrown e w').
Proof.
  intros Ho Hl Hk.
  by destruct (calls_summary this l k _ cs w (ready_intro w this o l k Ho Hl Hk))
    as (_ & H & _).
Qed.

Lemma calls_keep_lock_discipline_witness :
  ∃ t held,
    trace (world_of (calls 1%positive [CallRetain here; CallRelease here; CallRelease here]
                       fresh_world)) = trace fresh_world ++ t ∧
    guarded 1%positive 1%positive false t = Some held ∧
    (held = true ↔
     ∃ e w', calls 1%positive [CallRetain here; CallRelease here; CallRelease here]
               fresh_world = Thrown e w').
Proof.
  apply (calls_keep_lock_discipline 1%positive
           (mkObj 1 (Some 1%positive) LOCK_POLICY_MUTEX) 1%positive Mutex fresh_world
           [CallRetain here; CallRelease here; CallRelease here]);
    reflexivity.
Defined.






(** X6.  A copy and its source live apart.  After a copy construction
    from a usable source with a listed policy, every history of retains
    and releases on the copy, however it ends, leaves the source object
    and the source's lock exactly as they were, and every history on the
    source leaves the copy and the copy's lock exactly as the
    construction made them. *)
Theorem copy_and_source_are_independent site b ob lb kb k w :
  objects w !! b = Some ob →
  m_refCounterLock ob = Some lb →
  locks w !! lb = Some (mkLock kb false) →
  lock_class_of (m_lockPolicy ob) = Some k →
  ∃ this l w1,
    SmartObject_copy_ctor site b w = Ok this w1 ∧
    (∀ cs, objects (world_of (calls this cs w1)) !! b = Some ob ∧
           locks (world_of (calls this cs w1)) !! lb = Some (mkLock kb false)) ∧
    (∀ cs, objects (world_of (calls b cs w1)) !! this =
             Some (mkObj 1 (Some l) (m_lockPolicy ob)) ∧
           locks (world_of (calls b cs w1)) !! l = Some (mkLock k false)).
Proof.
  intros Hb Hlb Hkb Hk.
  pose proof (SmartObject_copy_ctor_eq site b ob k w Hb Hk) as E. cbv zeta in E.
  set (this := fresh (dom (objects w))) in *. set (l := fresh (dom (locks w))) in *.
  set (o := mkObj 1 (Some l) (m_lockPolicy ob)) in *.
  set (w1 := mkWorld (<[this := o]> (objects w)) _ _) in *.
  assert (Hne : this ≠ b).
  { intros Heq. pose proof (fresh_object_free w) as Hf. fold this in Hf. congruence. }
  assert (Hnl : l ≠ lb).
  { intros Heq. pose proof (fresh_lock_free w) as Hf. fold l in Hf. congruence. }
  assert (Ho1 : objects w1 !! this = Some o) by apply lookup_insert_eq.
  assert (Hl1 : locks w1 !! l = Some (mkLock k false)) by apply lookup_insert_eq.
  assert (Hb1 : objects w1 !! b = Some ob)
    by (cbn [objects w1]; by rewrite lookup_insert_ne).
  assert (Hlb1 : locks w1 !! lb = Some (mkLock kb false))
    by (cbn [locks w1]; by rewrite lookup_insert_ne).
  exists this, l, w1. split; [exact E|]. split.
  - intros cs.
    destruct (calls_summary this l k _ cs w1 (ready_intro w1 this o l k Ho1 eq_refl Hl1))
      as ([Fo Fl] & _).
    by rewrite Fo, Fl by done.
  - intros cs.
    destruct (calls_summary b lb kb _ cs w1 (ready_intro w1 b ob lb kb Hb1 Hlb Hlb1))
      as ([Fo Fl] & _).
    by rewrite Fo, Fl by done.
Qed.

Lemma copy_and_source_are_independent_witness :
  ∃ this l w1,
    SmartObject_copy_ctor here 1%positive fresh_world = Ok this w1 ∧
    (∀ cs, objects (world_of (calls this cs w1)) !! 1%positive =
             Some (mkObj 1 (Some 1%positive) LOCK_POLICY_MUTEX) ∧
           locks (world_of (calls this cs w1)) !! 1%positive = Some (mkLock Mutex false)) ∧
    (∀ cs, objects (world_of (calls 1%positive cs w1)) !! this =
             Some (mkObj 1 (Some l) LOCK_POLICY_MUTEX) ∧
           locks (world_of (calls 1%positive cs w1)) !! l = Some (mkLock Mutex false)).
Proof.
  apply (copy_and_source_are_independent here 1%positive
           (mkObj 1 (Some 1%positive) LOCK_POLICY_MUTEX) 1%positive Mutex Mutex fresh_world);
    reflexivity.
Defined.

(** ** Deleting directly *)

(** X7.  Deleting the sole owner's object directly does what the last
    [Release] does.  On a usable object with count 1, [EP_DELETE this]
    returns normally, and it leaves the same object store and the same
    lock store as [Release] would: the stores as they were, without the
    object and without its lock. *)
Theorem delete_this_agrees_with_last_Release site this o l k w :
  objects w !! this = Some o →
  m_refCount o = 1 →
  m_refCounterLock o = Some l →
  locks w !! l = Some (mkLock k false) →
  ∃ w1 w2,
    delete_this this w = Ok tt w1 ∧
    Release site this w = Ok tt w2 ∧
    objects w1 = delete this (objects w) ∧ locks w1 = delete l (locks w) ∧
    objects w2 = objects w1 ∧ locks w2 = locks w1.
Proof.
  intros Ho Hc Hl Hk.
  assert (Hz : wrap_int (m_refCount o - 1) = 0) by (by rewrite Hc).
  eexists _, _.
  split; [by eapply delete_this_eq_one|].
  split; [by eapply Release_eq_last|]. done.
Qed.

Lemma delete_this_agrees_with_last_Release_witness :
  ∃ w1 w2,
    delete_this 1%positive fresh_world = Ok tt w1 ∧
    Release here 1%positive fresh_world = Ok tt w2 ∧
    objects w1 = delete 1%positive (objects fresh_world) ∧
    locks w1 = delete 1%positive (locks fresh_world) ∧
    objects w2 = objects w1 ∧ locks w2 = locks w1.
Proof.
  apply (delete_this_agrees_with_last_Release here 1%positive
           (mkObj 1 (Some 1%positive) LOCK_POLICY_MUTEX) 1%positive Mutex fresh_world);
    reflexivity.
Defined.

(** X8.  The destructor returns normally for count 1 only.  On a usable
    object whose count c is an [int], the destructor returns normally,
    with the lock freed, exactly when c = 1.  For every other count, 0
    and the negative ones included, it throws the runtime error that
    carries c - 1 (wrapped at INT_MIN), and the object then still exists
    with that decremented count. *)
Theorem SmartObject_dtor_returns_iff_sole_owner this o l k w :
  objects w !! this = Some o →
  m_refCounterLock o = Some l →
  locks w !! l = Some (mkLock k false) →
  INT_MIN ≤ m_refCount o ≤ INT_MAX →
  ((∃ w', SmartObject_dtor this w = Ok tt w') ↔ m_refCount o = 1) ∧
  (m_refCount o = 1 →
   ∃ w', SmartObject_dtor this w = Ok tt w' ∧ locks w' !! l = None) ∧
  (m_refCount o ≠ 1 →
   ∃ w', SmartObject_dtor this w =
           Thrown (runtime_error (nonzero_count_msg (wrap_int (m_refCount o - 1)))) w' ∧
         objects w' !! this = Some (with_refCount o (wrap_int (m_refCount o - 1)))).
Proof.
  intros Ho Hl Hk Hc.
  assert (Hiff : wrap_int (m_refCount o - 1) = 0 ↔ m_refCount o = 1).
  { unfold wrap_int, INT_MIN, INT_MAX in *. split; [|intros ->; reflexivity].
    intros H. destruct (decide (m_refCount o = -2147483648)) as [E|E].
    - rewrite E in H. discriminate H.
    - rewrite Z.mod_small in H by lia. lia. }
  assert (H1 : m_refCount o = 1 →
            ∃ w', SmartObject_dtor this w = Ok tt w' ∧ locks w' !! l = None).
  { intros E. eexists. split.
    - eapply SmartObject_dtor_eq_zero; eauto. by apply Hiff.
    - apply lookup_delete_eq. }
  assert (H2 : m_refCount o ≠ 1 →
            ∃ w', SmartObject_dtor this w =
                    Thrown (runtime_error (nonzero_count_msg (wrap_int (m_refCount o - 1)))) w' ∧
                  objects w' !! this = Some (with_refCount o (wrap_int (m_refCount o - 1)))).
  { intros E. eexists. split.
    - eapply SmartObject_dtor_eq_nonzero; eauto. by rewrite Hiff.
    - apply lookup_insert_eq. }
  split; [|by split]. split.
  - intros (w' & E). destruct (decide (m_refCount o = 1)) as [|Hne]; [done|].
    destruct (H2 Hne) as (w'' & E' & _). rewrite E' in E. discriminate E.
  - intros E. destruct (H1 E) as (w' & E' & _). by exists w'.
Qed.

Lemma SmartObject_dtor_returns_iff_sole_owner_witness :
  ∃ w', SmartObject_dtor 1%positive overreleased_world =
          Thrown (runtime_error (nonzero_count_msg (-1))) w' ∧
        objects w' !! 1%positive = Some (mkObj (-1) (Some 1%positive) LOCK_POLICY_MUTEX).
Proof.
  destruct (SmartObject_dtor_returns_iff_sole_owner 1%positive
              (mkObj 0 (Some 1%positive) LOCK_POLICY_MUTEX) 1%positive Mutex
              overreleased_world) as (_ & _ & H);
    [reflexivity | reflexivity | reflexivity | unfold INT_MIN, INT_MAX; cbn; lia |].
  apply H. cbn. lia.
Defined.

(** ** The three ways of [Release] *)

(** X9.  The count alone decides how [Release] ends.  On a usable object
    whose count c is an [int] above INT_MIN, [Release] returns normally
    with the object still there (its count c - 1, its lock free again)
    exactly when c >= 2; it returns normally with the object gone
    exactly when c = 1; and it throws exactly when c <= 0, the domain
    error carrying c - 1. *)
Theorem Release_outcome_by_count site this o l k w :
  objects w !! this = Some o →
  m_refCounterLock o = Some l →
  locks w !! l = Some (mkLock k false) →
  INT_MIN < m_refCount o ≤ INT_MAX →
  (2 ≤ m_refCount o ↔
     ∃ w', Release site this w = Ok tt w' ∧
           objects w' !! this = Some (with_refCount o (m_refCount o - 1)) ∧
           locks w' !! l = Some (mkLock k false)) ∧
  (m_refCount o = 1 ↔
     ∃ w', Release site this w = Ok tt w' ∧ objects w' !! this = None) ∧
  (m_refCount o ≤ 0 ↔
     ∃ w', Release site this w =
             Thrown (domain_error (negative_count_msg (m_refCount o - 1))) w').
Proof.
  intros Ho Hl Hk Hc.
  assert (Hw : wrap_int (m_refCount o - 1) = m_refCount o - 1)
    by (apply wrap_int_id; unfold INT_MIN, INT_MAX in *; lia).
  destruct (Z.lt_trichotomy (m_refCount o) 1) as [Hlt|[Heq|Hgt]].
  - pose proof (Release_eq_negative site this o l k w Ho Hl Hk) as E.
    cbv zeta in E. rewrite Hw in E. specialize (E ltac:(lia)).
    split; [|split]; (split; [intros H; try lia|]).
    + intros (w' & E' & _). rewrite E in E'. discriminate E'.
    + intros (w' & E' & _). rewrite E in E'. discriminate E'.
    + by eexists.
    + intros _. lia.
  - pose proof (Release_eq_last site this o l k w Ho Hl Hk) as E.
    rewrite Hw in E. specialize (E ltac:(lia)).
    split; [|split]; (split; [intros H; try lia|]).
    + intros (w' & E' & Ho' & _). rewrite E in E'. inversion E'; subst w'.
      cbn [objects] in Ho'. rewrite lookup_delete_eq in Ho'. discriminate Ho'.
    + eexists. split; [exact E|apply lookup_delete_eq].
    + intros _. exact Heq.
    + intros (w' & E'). rewrite E in E'. discriminate E'.
  - pose proof (Release_eq_more site this o l k w Ho Hl Hk) as E.
    cbv zeta in E. rewrite Hw in E. specialize (E ltac:(lia)).
    split; [|split]; (split; [intros H; try lia|]).
    + eexists. split; [exact E|]. split; [apply lookup_insert_eq|exact Hk].
    + intros _. lia.
    + intros (w' & E' & Ho'). rewrite E in E'. inversion E'; subst w'.
      cbn [objects] in Ho'. rewrite lookup_insert_eq in Ho'. discriminate Ho'.
    + intros (w' & E'). rewrite E in E'. discriminate E'.
Qed.

Lemma Release_outcome_by_count_witness :
  2 ≤ 2 ↔
  ∃ w', Release here 1%positive shared_world = Ok tt w' ∧
        objects w' !! 1%positive =
          Some (with_refCount (mkObj 2 (Some 1%positive) LOCK_POLICY_CRITICALSECTION) (2 - 1)) ∧
        locks w' !! 1%positive = Some (mkLock CriticalSectionEx false).
Proof.
  apply (Release_outcome_by_count here 1%positive
           (mkObj 2 (Some 1%positive) LOCK_POLICY_CRITICALSECTION) 1%positive
           CriticalSectionEx shared_world);
    first [reflexivity | by (unfold INT_MIN, INT_MAX; cbn; lia)].
Defined.

(** ** Objects without a lock *)

(** X10.  An object built with a policy outside the three enumerators
    cannot be released and cannot be destroyed.  Its lock pointer is
    NULL, and [Release] and the destructor both begin with
    [m_refCounterLock->Lock()]: each is undefined and changes nothing.
    The destructor's test [if(m_refCounterLock)] of line 196 comes after
    its [Lock] call of line 186 and is never reached with a NULL
    pointer. *)
Theorem unlisted_policy_object_is_unusable site policy w :
  lock_class_of policy = None →
  ∃ this w',
    SmartObject_ctor site policy w = Ok this w' ∧
    objects w' !! this = Some (mkObj 1 None policy) ∧
    (∀ q, Release q this w' = Undefined w') ∧
    SmartObject_dtor this w' = Undefined w' ∧
    (∀ w'', delete_this this w' ≠ Ok tt w'').
Proof.
  intros Hk. eexists _, _. split; [by apply SmartObject_ctor_eq_unlisted|].
  set (w' := mkWorld _ _ _).
  assert (Ho : objects w' !! fresh (dom (objects w)) = Some (mkObj 1 None policy))
    by apply lookup_insert_eq.
  split; [exact Ho|].
  split; [intros q; by apply (call_null_lock _ _ (CallRelease q) _ Ho)|].
  split; [by eapply SmartObject_dtor_null_lock|].
  intros w''. rewrite delete_this_eq.
  erewrite SmartObject_dtor_null_lock; [discriminate|apply lookup_insert_eq|reflexivity].
Qed.

Lemma unlisted_policy_object_is_unusable_witness :
  ∃ this w',
    SmartObject_ctor here (LOCK_POLICY_unlisted 7) fresh_world = Ok this w' ∧
    objects w' !! this = Some (mkObj 1 None (LOCK_POLICY_unlisted 7)) ∧
    (∀ q, Release q this w' = Undefined w') ∧
    SmartObject_dtor this w' = Undefined w' ∧
    (∀ w'', delete_this this w' ≠ Ok tt w'').
Proof.
  apply (unlisted_policy_object_is_unusable here (LOCK_POLICY_unlisted 7) fresh_world).
  reflexivity.
Defined.

(** X11.  Copying an object that has no lock gives an object that has no
    lock.  A copy construction from a live source whose policy is
    outside the three enumerators returns normally; the copy has count
    1, the source's policy value and a NULL lock pointer, no lock is
    made, every object that existed is as it was, and the copy can be
    neither released nor destroyed: both call through the NULL pointer.
    From a source that no longer exists the copy construction is
    undefined. *)
Theorem SmartObject_copy_ctor_without_lock site b w :
  (∀ ob, objects w !! b = Some ob →
         lock_class_of (m_lockPolicy ob) = None →
         ∃ this w',
           SmartObject_copy_ctor site b w = Ok this w' ∧
           objects w !! this = None ∧
           objects w' !! this = Some (mkObj 1 None (m_lockPolicy ob)) ∧
           locks w' = locks w ∧
           (∀ a o, objects w !! a = Some o → objects w' !! a = Some o) ∧
           (∀ q, Release q this w' = Undefined w') ∧
           SmartObject_dtor this w' = Undefined w') ∧
  (objects w !! b = None →
   ∃ w', SmartObject_copy_ctor site b w = Undefined w' ∧
         objects w' = objects w ∧ locks w' = locks w).
Proof.
  split.
  - intros ob Hb Hk. eexists _, _.
    split; [by apply SmartObject_copy_ctor_eq_unlisted|].
    split; [apply fresh_object_free|]. cbn [objects locks].
    split; [apply lookup_insert_eq|]. split; [reflexivity|]. split.
    + intros a o Ha. rewrite lookup_insert_ne; [done|].
      intros <-. rewrite fresh_object_free in Ha. discriminate Ha.
    + split.
      * intros q. eapply (call_null_lock _ _ (CallRelease q));
          [apply lookup_insert_eq|reflexivity].
      * eapply SmartObject_dtor_null_lock; [apply lookup_insert_eq|reflexivity].
  - intros Hb. eexists. split; [by apply SmartObject_copy_ctor_eq_gone|done].
Qed.

(** ** Errors with the no-op lock *)

(** X12.  The negative-count error keeps the decrement.  Under
    [LOCK_POLICY_NONE], a [Release] that finds a count c <= 0 (above
    INT_MIN) throws the domain error carrying c - 1 and leaves the
    object with count c - 1 and everything else as it was; the object
    is usable as before, so the next [Release] finds c - 1, throws
    again and carries c - 2. *)
Theorem Release_error_repeats_without_lock site site' this o l w :
  objects w !! this = Some o →
  m_refCounterLock o = Some l →
  locks w !! l = Some (mkLock NoLock false) →
  INT_MIN + 1 < m_refCount o ≤ 0 →
  ∃ w1 w2,
    Release site this w =
      Thrown (domain_error (negative_count_msg (m_refCount o - 1))) w1 ∧
    objects w1 = <[this := with_refCount o (m_refCount o - 1)]> (objects w) ∧
    locks w1 = locks w ∧
    Release site' this w1 =
      Thrown (domain_error (negative_count_msg (m_refCount o - 2))) w2 ∧
    objects w2 = <[this := with_refCount o (m_refCount o - 2)]> (objects w) ∧
    locks w2 = locks w.
Proof.
  intros Ho Hl Hk Hc.
  assert (Hw1 : wrap_int (m_refCount o - 1) = m_refCount o - 1)
    by (apply wrap_int_id; unfold INT_MIN, INT_MAX in *; lia).
  assert (Hw2 : wrap_int (m_refCount o - 1 - 1) = m_refCount o - 2)
    by (rewrite wrap_int_id; unfold INT_MIN, INT_MAX in *; lia).
  pose proof (Release_eq_negative site this o l NoLock w Ho Hl Hk) as E1.
  cbv zeta in E1. rewrite Hw1 in E1. specialize (E1 ltac:(lia)).
  change (acquired NoLock) with (mkLock NoLock false) in E1.
  rewrite (insert_id _ _ _ Hk) in E1.
  set (o1 := with_refCount o (m_refCount o - 1)) in *.
  set (w1 := mkWorld (<[this := o1]> (objects w)) (locks w) _) in *.
  pose proof (Release_eq_negative site' this o1 l NoLock w1
                (lookup_insert_eq _ _ _) Hl Hk) as E2.
  cbv zeta in E2. cbn [m_refCount o1 with_refCount] in E2.
  rewrite Hw2 in E2. specialize (E2 ltac:(lia)).
  change (acquired NoLock) with (mkLock NoLock false) in E2.
  cbn [locks w1] in E2. rewrite (insert_id _ _ _ Hk) in E2.
  eexists w1, _. split; [exact E1|]. split; [reflexivity|]. split; [reflexivity|].
  split; [exact E2|]. cbn [objects locks w1].
  split; [by rewrite insert_insert_eq|reflexivity].
Qed.

Lemma Release_error_repeats_without_lock_witness :
  ∃ w1 w2,
    Release here 2%positive
      (mkWorld {[ 2%positive := mkObj 0 (Some 5%positive) LOCK_POLICY_NONE ]}
               {[ 5%positive := mkLock NoLock false ]} []) =
      Thrown (domain_error (negative_count_msg (0 - 1))) w1 ∧
    Release here 2%positive w1 =
      Thrown (domain_error (negative_count_msg (0 - 2))) w2.
Proof.
  destruct (Release_error_repeats_without_lock here here 2%positive
              (mkObj 0 (Some 5%positive) LOCK_POLICY_NONE) 5%positive
              (mkWorld {[ 2%positive := mkObj 0 (Some 5%positive) LOCK_POLICY_NONE ]}
                       {[ 5%positive := mkLock NoLock false ]} []))
    as (w1 & w2 & E1 & _ & _ & E2 & _);
    [reflexivity | reflexivity | reflexivity | unfold INT_MIN; cbn; lia |].
  by exists w1, w2.
Defined.

Lemma SmartObject_copy_ctor_without_lock_witness :
  ∃ this w',
    SmartObject_copy_ctor here 1%positive
      (world_of (SmartObject_ctor here (LOCK_POLICY_unlisted 3) empty_world)) = Ok this w' ∧
    objects w' !! this = Some (mkObj 1 None (LOCK_POLICY_unlisted 3)).
Proof.
  destruct (SmartObject_copy_ctor_without_lock here 1%positive
              (world_of (SmartObject_ctor here (LOCK_POLICY_unlisted 3) empty_world)))
    as [H _].
  destruct (H (mkObj 1 None (LOCK_POLICY_unlisted 3)) eq_refl eq_refl)
    as (this & w' & E & _ & Ho & _).
  by exists this, w'.
Defined.

(** ** What the diagnostics show *)

Lemma shown_app this t1 t2 : ∀ cur,
  shown this cur (t1 ++ t2) =
    match shown this cur t1 with
    | Some cur' => shown this cur' t2
    | None => None
    end.
Proof.
  induction t1 as [|e t1 IH]; intros cur; [reflexivity|].
  destruct e; cbn [app shown]; repeat case_decide; auto.
Qed.

Ltac shown_eval :=
  intros ?; cbn [shown]; rewrite ?decide_True by reflexivity; by eexists.

(** The messages of one call show the value the call has just written. *)
Lemma call_shown this l k p c w :
  ready w this l k p →
  ∃ t, trace (world_of (call this c w)) = trace w ++ t ∧
       ∀ cur, is_Some (shown this cur t).
Proof.
  intros [(o & Ho & Hl & Hp) Hk]. destruct c as [site|site]; cbn [call].
  - erewrite Retain_eq by eauto. eexists. split; [reflexivity|shown_eval].
  - destruct (wrap_int_trichotomy (m_refCount o - 1)) as [Hc|[Hc|Hc]].
    + erewrite Release_eq_more by eauto. eexists. split; [reflexivity|shown_eval].
    + erewrite Release_eq_last by eauto. eexists. split; [reflexivity|shown_eval].
    + erewrite Release_eq_negative by eauto. eexists. split; [reflexivity|shown_eval].
Qed.

Lemma calls_shown this l k p cs : ∀ w,
  ready w this l k p →
  ∃ t, trace (world_of (calls this cs w)) = trace w ++ t ∧
       ∀ cur, is_Some (shown this cur t).
Proof.
  induction cs as [|c cs IH]; intros w Hr.
  - exists []. cbn. rewrite app_nil_r. split; [done|]. intros cur. by eexists.
  - destruct (call_shown this l k p c w Hr) as (t1 & Ht1 & Hs1).
    destruct (call_summary this l k p c w Hr) as (_ & t1' & _ & Hcase).
    cbn [calls]. rewrite bind_eq.
    destruct Hcase as [(w1 & E & Hr1 & _)|[(w1 & E & Hgo & _)|(e & w1 & E & _)]];
      rewrite E in *; cbn [world_of] in Ht1.
    + destruct (IH w1 Hr1) as (t2 & Ht2 & Hs2).
      exists (t1 ++ t2). rewrite Ht2, Ht1, <- app_assoc. split; [done|].
      intros cur. rewrite shown_app. destruct (Hs1 cur) as [cur' ->]. apply Hs2.
    + assert (Hwo : world_of (calls this cs w1) = w1).
      { destruct cs; [reflexivity|]. by rewrite calls_gone. }
      rewrite Hwo. by exists t1.
    + cbn [world_of]. by exists t1.
Qed.

(** X13.  Every diagnostic message shows the counter as it is.  From the
    construction of an object with a listed policy on, through any
    history of retains and releases and however it ends, each message
    about the object (allocated, retained, released, deleted) carries
    the value that was last written to the object's counter. *)
Theorem diagnostics_show_current_count site policy k w cs :
  lock_class_of policy = Some k →
  ∃ this w1 t,
    SmartObject_ctor site policy w = Ok this w1 ∧
    trace (world_of (calls this cs w1)) = trace w ++ t ∧
    is_Some (shown this None t).
Proof.
  intros Hk.
  pose proof (SmartObject_ctor_eq site policy k w Hk) as Hctor. cbv zeta in Hctor.
  set (this := fresh (dom (objects w))) in *. set (l := fresh (dom (locks w))) in *.
  set (o := mkObj 1 (Some l) policy) in *.
  set (w1 := mkWorld (<[this := o]> (objects w)) _ _) in *.
  destruct (calls_shown this l k policy cs w1) as (t & Ht & Hs).
  { split; [|apply lookup_insert_eq].
    exists o. split; [apply lookup_insert_eq|by split]. }
  eexists this, w1, _. split; [exact Hctor|]. split.
  - rewrite Ht. cbn [trace w1]. by rewrite <- app_assoc.
  - rewrite shown_app. cbn [shown]. rewrite !decide_True by reflexivity. apply Hs.
Qed.

Lemma diagnostics_show_current_count_witness :
  ∃ this w1 t,
    SmartObject_ctor here LOCK_POLICY_MUTEX empty_world = Ok this w1 ∧
    trace (world_of (calls this [CallRetain here; CallRelease here; CallRelease here] w1)) =
      trace empty_world ++ t ∧
    is_Some (shown this None t).
Proof.
  apply (diagnostics_show_current_count here LOCK_POLICY_MUTEX Mutex empty_world
           [CallRetain here; CallRelease here; CallRelease here]).
  reflexivity.
Defined.
